(** * Address book (project.py): a shallow embedding and its properties

    The development follows the layout of [project.py]:
    the Python runtime pieces the program relies on (exceptions, [str]
    methods, [re.match] for the two patterns used, the insertion-ordered
    [dict], [datetime.date], files and [pickle]), then the [Field] family,
    [Record], [AddressBook], the command layer and one iteration of the
    interactive loop.

    Conventions of the model.
    - A Python [str] is a [string]: a sequence of code points below 256.
    - A [dict] is an association list in insertion order.
    - Objects are modelled by value.  The command layer never stores one
      [Record] object under two keys, so no claim depends on aliasing.
    - Every operation is a function [state -> result A * state]: Python
      mutates in place, so the state reached when an exception escapes is
      part of the outcome.
    - The input of a session is the list of the lines typed; when it is
      used up, [input] raises [EOFError]. *)

From Stdlib Require Import ZArith String Ascii List Bool Lia ZifyBool.
From stdpp Require Import gmap strings.
Import ListNotations.

Local Open Scope string_scope.
Local Open Scope Z_scope.

(** ** Python runtime: exceptions and results *)

Inductive exn : Type :=
  | ValueError (msg : string)
  | KeyError (key : string)
  | FileNotFoundError (path : string)
  | IsADirectoryError (path : string)
  | UnpicklingError
  | NotADirectoryError (path : string)
  | PermissionError (path : string)
  | EOFError.

Inductive result (A : Type) : Type :=
  | Ok (a : A)
  | Raise (e : exn).

Arguments Ok {A} a.
Arguments Raise {A} e.

(** [except FileNotFoundError] catches exactly this class. *)
Definition is_FileNotFoundError (e : exn) : bool :=
  match e with FileNotFoundError _ => true | _ => false end.

(** [str(e)] for the exceptions a file operation can raise. *)
Definition str_exn (e : exn) : string :=
  match e with
  | ValueError msg => msg
  | KeyError key => "'" ++ key ++ "'"
  | FileNotFoundError path =>
      "[Errno 2] No such file or directory: '" ++ path ++ "'"
  | IsADirectoryError path =>
      "[Errno 21] Is a directory: '" ++ path ++ "'"
  | UnpicklingError => "invalid load key"
  | NotADirectoryError path =>
      "[Errno 20] Not a directory: '" ++ path ++ "'"
  | PermissionError path =>
      "[Errno 13] Permission denied: '" ++ path ++ "'"
  | EOFError => "EOF when reading a line"
  end.

(** ** Python runtime: [str] *)

Definition code (c : ascii) : Z := Z.of_N (N_of_ascii c).

Definition in_range (lo hi : Z) (c : ascii) : bool :=
  (lo <=? code c) && (code c <=? hi).

Definition is_upper_az (c : ascii) : bool := in_range 65 90 c.
Definition is_lower_az (c : ascii) : bool := in_range 97 122 c.
Definition is_digit (c : ascii) : bool := in_range 48 57 c.

(** [str.isspace] on code points below 256: TAB..CR, FS..US, space,
    NEL (133) and NBSP (160). *)
Definition is_space (c : ascii) : bool :=
  in_range 9 13 c || in_range 28 32 c || (code c =? 133) || (code c =? 160).

(** [str.lower] on one code point below 256: A-Z and the Latin-1 capitals
    192..222 (except the multiplication sign, 215) move up by 32. *)
Definition lower_char (c : ascii) : ascii :=
  if is_upper_az c || (in_range 192 222 c && negb (code c =? 215))
  then ascii_of_N (N_of_ascii c + 32)
  else c.

Fixpoint lower (s : string) : string :=
  match s with
  | EmptyString => EmptyString
  | String c r => String (lower_char c) (lower r)
  end.

(** [s.split()]: maximal runs of non-whitespace, in order.  [cur] is the
    token being read, reversed. *)
Fixpoint rev_string (acc s : string) : string :=
  match s with
  | EmptyString => acc
  | String c r => rev_string (String c acc) r
  end.

Definition flush (cur : string) : list string :=
  match cur with
  | EmptyString => []
  | _ => [rev_string EmptyString cur]
  end.

Fixpoint split_from (cur s : string) : list string :=
  match s with
  | EmptyString => flush cur
  | String c r =>
      if is_space c then flush cur ++ split_from EmptyString r
      else split_from (String c cur) r
  end.

Definition split (s : string) : list string := split_from EmptyString s.

(** [sep.join(l)]. *)
Fixpoint join (sep : string) (l : list string) : string :=
  match l with
  | [] => EmptyString
  | [x] => x
  | x :: r => x ++ sep ++ join sep r
  end.

(** Truthiness of a [str]: non-empty. *)
Definition truthy (s : string) : bool :=
  match s with EmptyString => false | _ => true end.

(** ** Python runtime: [re.match] for patterns of the shape [^[class]+$]

    [cls+] is greedy and [$] matches at the end of the string or just
    before a newline that ends the string.  Neither class used by the
    program contains the newline, so backtracking never changes the
    outcome and the match is decided in one pass. *)
Fixpoint rest_of_plus_eol (cls : ascii -> bool) (s : string) : bool :=
  match s with
  | EmptyString => true
  | String c r =>
      if cls c then rest_of_plus_eol cls r
      else (code c =? 10) && negb (truthy r)
  end.

Definition re_match_plus_eol (cls : ascii -> bool) (s : string) : bool :=
  match s with
  | EmptyString => false
  | String c r => cls c && rest_of_plus_eol cls r
  end.

(** The class [[A-Za-z ]]. *)
Definition letter_or_space (c : ascii) : bool :=
  is_upper_az c || is_lower_az c || (code c =? 32).

(** [re.match("^[A-Za-z ]+$", name)] and [re.match("^\d+$", phone)];
    below 256 the only decimal digits are 0-9. *)
Definition match_name (name : string) : bool :=
  re_match_plus_eol letter_or_space name.

Definition match_phone (phone : string) : bool :=
  re_match_plus_eol is_digit phone.

(** ** Python runtime: [dict], insertion ordered *)

Section Dict.
Context {V : Type}.

Definition dict := list (string * V).

Fixpoint dict_get (d : dict) (k : string) : option V :=
  match d with
  | [] => None
  | (k', v) :: r => if String.eqb k k' then Some v else dict_get r k
  end.

(** [k in d] *)
Definition dict_contains (d : dict) (k : string) : bool :=
  match dict_get d k with Some _ => true | None => false end.

(** [d[k] = v]: an existing key keeps its position. *)
Fixpoint dict_set (d : dict) (k : string) (v : V) : dict :=
  match d with
  | [] => [(k, v)]
  | (k', v') :: r =>
      if String.eqb k k' then (k, v) :: r else (k', v') :: dict_set r k v
  end.

(** The mapping without key [k]. *)
Fixpoint dict_remove (d : dict) (k : string) : dict :=
  match d with
  | [] => []
  | (k', v') :: r =>
      if String.eqb k k' then dict_remove r k else (k', v') :: dict_remove r k
  end.

Definition dict_keys (d : dict) : list string := map fst d.
End Dict.

Arguments dict V : clear implicits.

(** ** Python runtime: [datetime.date]

    Proleptic Gregorian calendar, as in CPython's [datetime]. *)

Record date : Type := mkDate { year : Z; month : Z; day : Z }.

Definition MINYEAR : Z := 1.
Definition MAXYEAR : Z := 9999.

Definition is_leap (y : Z) : bool :=
  (y mod 4 =? 0) && (negb (y mod 100 =? 0) || (y mod 400 =? 0)).

Definition days_in_month (y m : Z) : Z :=
  if (m =? 2) && is_leap y then 29
  else if m =? 2 then 28
  else if (m =? 4) || (m =? 6) || (m =? 9) || (m =? 11) then 30
  else 31.

Definition days_before_year (y : Z) : Z :=
  let p := y - 1 in p * 365 + p / 4 - p / 100 + p / 400.

Definition days_before_month_common (m : Z) : Z :=
  if m <=? 1 then 0 else if m =? 2 then 31 else if m =? 3 then 59
  else if m =? 4 then 90 else if m =? 5 then 120 else if m =? 6 then 151
  else if m =? 7 then 181 else if m =? 8 then 212 else if m =? 9 then 243
  else if m =? 10 then 273 else if m =? 11 then 304 else 334.

Definition days_before_month (y m : Z) : Z :=
  days_before_month_common m + (if (2 <? m) && is_leap y then 1 else 0).

(** The range checks of the constructor, as predicates: month and day,
    and the three together. *)
Definition valid_md (y m d : Z) : bool :=
  (1 <=? m) && (m <=? 12) && (1 <=? d) && (d <=? days_in_month y m).

Definition valid_ymd (y m d : Z) : bool :=
  (MINYEAR <=? y) && (y <=? MAXYEAR) && valid_md y m d.

Definition valid_date (d : date) : bool := valid_ymd (year d) (month d) (day d).

(** [date(y, m, d)]: year, then month, then day are checked. *)
Definition new_date (y m d : Z) : result date :=
  if negb ((MINYEAR <=? y) && (y <=? MAXYEAR))
  then Raise (ValueError "year is out of range")
  else if negb ((1 <=? m) && (m <=? 12))
  then Raise (ValueError "month must be in 1..12")
  else if negb ((1 <=? d) && (d <=? days_in_month y m))
  then Raise (ValueError "day is out of range for month")
  else Ok (mkDate y m d).

Definition toordinal (d : date) : Z :=
  days_before_year (year d) + days_before_month (year d) (month d) + day d.

(** [a < b] on dates compares (year, month, day). *)
Definition date_ltb (a b : date) : bool :=
  (year a <? year b)
  || ((year a =? year b)
      && ((month a <? month b) || ((month a =? month b) && (day a <? day b)))).

(** [(b - a).days] *)
Definition days_between (a b : date) : Z := toordinal b - toordinal a.

Definition same_month_day (a b : date) : bool :=
  (month a =? month b) && (day a =? day b).

(** The calendar day after [d] (what [d + timedelta(days=1)] denotes),
    used to state what a day count is. *)
Definition next_day (d : date) : date :=
  if day d <? days_in_month (year d) (month d)
  then mkDate (year d) (month d) (day d + 1)
  else if month d <? 12 then mkDate (year d) (month d + 1) 1
  else mkDate (year d + 1) 1 1.

(** ** Files and [pickle]

    The disk says, path by path, what [open] finds there.  A path without
    an entry names nothing.  An entry is a directory, a regular file that
    can be read and written ([File]), a regular file without the
    permission to write ([ReadOnlyFile]) or to read ([WriteOnlyFile]), or
    an entry that cannot be opened at all ([Denied]).  Paths are taken as
    they are written: links and different spellings of one path are not
    modelled, nor are failures of the device in the middle of a write.

    A regular file holds either the pickle of a mapping of records, as
    this program writes it, or bytes whose unpickling raises an exception
    ([Garbage]).  Pickles of other objects, and pickles that run code when
    loaded, are outside the model: [pickle.load] would hand them to the
    program as they are. *)

Inductive file_content (A : Type) : Type :=
  | Pickled (d : A)
  | Garbage.

Arguments Pickled {A} d.
Arguments Garbage {A}.

Inductive node (A : Type) : Type :=
  | File (c : file_content A)
  | Directory
  | ReadOnlyFile (c : file_content A)
  | WriteOnlyFile (c : file_content A)
  | Denied.

Arguments File {A} c.
Arguments Directory {A}.
Arguments ReadOnlyFile {A} c.
Arguments WriteOnlyFile {A} c.
Arguments Denied {A}.

(** ** The state the program runs in *)

(** [Record]: the values held by its [Name] field, its phone list and its
    [Birthday] field. *)
Record record : Type := mkRecord {
  name : string;
  phones : list string;
  birthday : option date
}.

(** [AddressBook]: the [UserDict] payload and the configured path. *)
Record address_book : Type := mkBook {
  data : dict record;
  file_path : option string
}.

(** The book, the files, and the arguments of [print] so far (the prompt
    written by [input] is not recorded). *)
Record state : Type := mkState {
  book : address_book;
  disk : gmap string (node (dict record));
  printed : list string
}.

Definition set_data (d : dict record) (st : state) : state :=
  mkState (mkBook d (file_path (book st))) (disk st) (printed st).

Definition set_disk (fs : gmap string (node (dict record))) (st : state) : state :=
  mkState (book st) fs (printed st).

(** A computation: the outcome and the state it leaves behind. *)
Definition M (A : Type) : Type := state -> result A * state.

Definition ret {A} (a : A) : M A := fun st => (Ok a, st).

Definition raise {A} (e : exn) : M A := fun st => (Raise e, st).

Definition bind {A B} (m : M A) (k : A -> M B) : M B :=
  fun st =>
    match m st with
    | (Ok a, st') => k a st'
    | (Raise e, st') => (Raise e, st')
    end.

Notation "x <- m ;; k" := (bind m (fun x => k))
  (at level 100, m at next level, right associativity).
Notation "m ;;; k" := (bind m (fun _ => k))
  (at level 100, right associativity).

Definition lift {A} (r : result A) : M A := fun st => (r, st).

Definition get_data : M (dict record) := fun st => (Ok (data (book st)), st).

Definition put_data (d : dict record) : M unit := fun st => (Ok tt, set_data d st).

(** [print(msg)] *)
Definition print (msg : string) : M unit :=
  fun st => (Ok tt, mkState (book st) (disk st) (printed st ++ [msg])).

(** ** Field family *)

(** [Name.validate] *)
Definition Name_validate (value : string) : result unit :=
  if negb (truthy value) then Raise (ValueError "Name field is required.")
  else Ok tt.

(** [Birthday.validate]: a value that is falsy or a [date] passes; the
    model holds nothing else. *)
Definition Birthday_validate (value : option date) : result unit := Ok tt.

(** [Field.__init__] and the [value] setter both install the value and
    then validate; the field is returned together with the outcome. *)
Definition Name_set (new_value : string) : string * result unit :=
  (new_value, Name_validate new_value).

(** ** Record *)

(** [Record.__init__(name, birthday=None)] *)
Definition new_record (nm : string) (bd : option date) : result record :=
  match Name_validate nm with
  | Raise e => Raise e
  | Ok _ =>
      match Birthday_validate bd with
      | Raise e => Raise e
      | Ok _ => Ok (mkRecord nm [] bd)
      end
  end.

Definition add_phone (r : record) (phone : string) : record :=
  mkRecord (name r) (phones r ++ [phone]) (birthday r).

Definition set_phones (r : record) (l : list string) : record :=
  mkRecord (name r) l (birthday r).

Definition set_name (r : record) (nm : string) : record :=
  mkRecord nm (phones r) (birthday r).

(** [x in l] for a list of [str]. *)
Definition list_contains (l : list string) (x : string) : bool :=
  existsb (String.eqb x) l.

(** [l.remove(x)]: drops the first equal element, [ValueError] if there is
    none. *)
Fixpoint list_remove (l : list string) (x : string) : result (list string) :=
  match l with
  | [] => Raise (ValueError "list.remove(x): x not in list")
  | y :: r =>
      if String.eqb x y then Ok r
      else match list_remove r x with
           | Ok r' => Ok (y :: r')
           | Raise e => Raise e
           end
  end.

(** [l.index(x)]: the position of the first equal element, [ValueError]
    if there is none. *)
Fixpoint list_index (l : list string) (x : string) : result nat :=
  match l with
  | [] => Raise (ValueError "x is not in list")
  | y :: r =>
      if String.eqb x y then Ok 0%nat
      else match list_index r x with
           | Ok i => Ok (S i)
           | Raise e => Raise e
           end
  end.

(** [Record.remove_phone]: the record after the call, or the exception. *)
Definition remove_phone (r : record) (phone : string) : result record :=
  if list_contains (phones r) phone then
    match list_remove (phones r) phone with
    | Ok l => Ok (set_phones r l)
    | Raise e => Raise e
    end
  else Ok r.

(** [Record.edit_phone]; [self.phones[index] = new_phone] is an assignment
    at a position [index] returned, hence in range. *)
Definition edit_phone (r : record) (old_phone new_phone : string) : result record :=
  if list_contains (phones r) old_phone then
    match list_index (phones r) old_phone with
    | Ok index => Ok (set_phones r (<[index := new_phone]> (phones r)))
    | Raise e => Raise e
    end
  else Ok r.

(** [Record.days_to_birthday], with [date.today()] as [today].
    [None] is Python's [None]. *)
Definition days_to_birthday (r : record) (today : date) : result (option Z) :=
  match birthday r with
  | None => Ok None
  | Some b =>
      match new_date (year today) (month b) (day b) with
      | Raise e => Raise e
      | Ok next_birthday =>
          if date_ltb next_birthday today then
            match new_date (year today + 1) (month b) (day b) with
            | Raise e => Raise e
            | Ok next_birthday' => Ok (Some (days_between today next_birthday'))
            end
          else Ok (Some (days_between today next_birthday))
      end
  end.

(** ** Opening a path *)

(** The directories a path goes through: its proper prefixes that end
    just before a "/" ("a" and "a/b" for "a/b/c").  The empty prefix of an
    absolute path is the root and is left out.  [seen] holds the
    characters read so far, reversed. *)
Fixpoint parents_from (seen s : string) : list string :=
  match s with
  | EmptyString => []
  | String c r =>
      (if (code c =? 47) && truthy seen
       then [rev_string EmptyString seen] else [])
      ++ parents_from (String c seen) r
  end.

Definition parents (path : string) : list string :=
  parents_from EmptyString path.

(** A path that ends in "/" names a directory. *)
Fixpoint ends_with_slash (s : string) : bool :=
  match s with
  | EmptyString => false
  | String c EmptyString => code c =? 47
  | String _ r => ends_with_slash r
  end.

(** Walking to [path]: every directory on the way must be there and be a
    directory. *)
Fixpoint walk (fs : gmap string (node (dict record))) (path : string)
    (dirs : list string) : result unit :=
  match dirs with
  | [] => Ok tt
  | dir :: rest =>
      match fs !! dir with
      | Some Directory => walk fs path rest
      | None => Raise (FileNotFoundError path)
      | Some Denied => Raise (PermissionError path)
      | Some (File _) | Some (ReadOnlyFile _) | Some (WriteOnlyFile _) =>
          Raise (NotADirectoryError path)
      end
  end.

(** What is at the end of the walk. *)
Definition entry (fs : gmap string (node (dict record))) (path : string)
    : option (node (dict record)) :=
  if ends_with_slash path then Some Directory else fs !! path.

(** ** Pickling the mapping *)

(** [Birthday.__getstate__] returns the instance dictionary and
    [Birthday.__setstate__] installs the one it is given; the dictionary
    holds the value of the field and nothing else. *)
Definition Birthday_getstate (value : option date) : option date := value.

Definition Birthday_setstate (state : option date) : option date := state.

(** A record goes through pickle field by field, the birthday through its
    two hooks. *)
Definition pickle_record (r : record) : record :=
  mkRecord (name r) (phones r) (Birthday_getstate (birthday r)).

Definition unpickle_record (r : record) : record :=
  mkRecord (name r) (phones r) (Birthday_setstate (birthday r)).

(** [pickle.dump(self.data, file)]: the bytes written. *)
Definition pickle_dumps (d : dict record) : file_content (dict record) :=
  Pickled (map (fun kv => (fst kv, pickle_record (snd kv))) d).

(** [pickle.load(file)] *)
Definition pickle_loads (c : file_content (dict record)) : result (dict record) :=
  match c with
  | Pickled d => Ok (map (fun kv => (fst kv, unpickle_record (snd kv))) d)
  | Garbage => Raise UnpicklingError
  end.

(** ** AddressBook *)

(** [open(path, "wb")] followed by [pickle.dump].  The open fails when a
    directory on the way is missing or is no directory, when the path
    names a directory, and when the entry may not be written; otherwise
    the file is created or truncated and the pickle written.  A path that
    ends in "/" is refused as a directory once the directories before its
    last component have been walked, whatever that component is. *)
Definition write_pickle (path : string) (d : dict record)
    (fs : gmap string (node (dict record)))
    : result unit * gmap string (node (dict record)) :=
  if ends_with_slash path then
    match walk fs path (removelast (parents path)) with
    | Raise e => (Raise e, fs)
    | Ok _ => (Raise (IsADirectoryError path), fs)
    end
  else
    match walk fs path (parents path) with
    | Raise e => (Raise e, fs)
    | Ok _ =>
        match fs !! path with
        | None | Some (File _) => (Ok tt, <[path := File (pickle_dumps d)]> fs)
        | Some (WriteOnlyFile _) =>
            (Ok tt, <[path := WriteOnlyFile (pickle_dumps d)]> fs)
        | Some Directory => (Raise (IsADirectoryError path), fs)
        | Some (ReadOnlyFile _) | Some Denied =>
            (Raise (PermissionError path), fs)
        end
    end.

(** [open(path, "rb")] followed by [pickle.load].  Here a path that ends
    in "/" is walked to its end. *)
Definition read_pickle (path : string)
    (fs : gmap string (node (dict record))) : result (dict record) :=
  match walk fs path (parents path) with
  | Raise e => Raise e
  | Ok _ =>
      match entry fs path with
      | None => Raise (FileNotFoundError path)
      | Some Directory => Raise (IsADirectoryError path)
      | Some (WriteOnlyFile _) | Some Denied => Raise (PermissionError path)
      | Some (File c) | Some (ReadOnlyFile c) => pickle_loads c
      end
  end.

(** [if self.file_path:] *)
Definition configured_path (ab : address_book) : option string :=
  match file_path ab with
  | Some p => if truthy p then Some p else None
  | None => None
  end.

Definition save_to_disk : M unit :=
  fun st =>
    match configured_path (book st) with
    | None => (Ok tt, st)
    | Some path =>
        match write_pickle path (data (book st)) (disk st) with
        | (Ok _, fs) => (Ok tt, set_disk fs st)
        | (Raise e, fs) =>
            print ("Error occurred while saving to disk: " ++ str_exn e)
                  (set_disk fs st)
        end
    end.

Definition load_from_disk : M unit :=
  fun st =>
    match configured_path (book st) with
    | None => (Ok tt, st)
    | Some path =>
        match read_pickle path (disk st) with
        | Ok d => (Ok tt, set_data d st)
        | Raise e =>
            if is_FileNotFoundError e then
              print "No previous data found. Starting with an empty address book." st
            else
              (print ("Error occurred while loading from disk: " ++ str_exn e) ;;;
               put_data []) st
        end
    end.

Definition add_record (r : record) : M unit :=
  d <- get_data ;;
  put_data (dict_set d (name r) r) ;;;
  save_to_disk.

(** [del self.data[key]] *)
Definition del_item (key : string) : M unit :=
  d <- get_data ;;
  if dict_contains d key then put_data (dict_remove d key)
  else raise (KeyError key).

(** [self.data.pop(key)] *)
Definition pop_item (key : string) : M record :=
  d <- get_data ;;
  match dict_get d key with
  | Some r => put_data (dict_remove d key) ;;; ret r
  | None => raise (KeyError key)
  end.

Definition remove_record (r : record) : M unit :=
  del_item (name r) ;;;
  save_to_disk.

Definition edit_record_name (old_name new_name : string) : M unit :=
  r <- pop_item old_name ;;
  let '(installed, checked) := Name_set new_name in
  lift checked ;;;
  d <- get_data ;;
  put_data (dict_set d new_name (set_name r installed)) ;;;
  save_to_disk.

(** ** Command layer *)

(** The decorator [validation_contact]: [args[0]] and [args[1]] are taken
    as name and phone.  No function of the program is decorated with it. *)
Definition validation_contact (func : string -> string -> M string)
    : string -> string -> M string :=
  fun nm phone =>
    if negb (match_name nm) then
      ret "Invalid input. Name can only contain English letters and spaces."
    else if negb (match_phone phone) then
      ret "Invalid input. Phone number can only contain digits."
    else func nm phone.

Definition add_contact (nm phone : string) : M string :=
  r <- lift (new_record nm None) ;;
  add_record (add_phone r phone) ;;;
  ret ("Contact " ++ nm ++ " with phone number " ++ phone ++ " has been added.").

Definition change_contact (nm phone : string) : M string :=
  d <- get_data ;;
  match dict_get d nm with
  | Some r =>
      put_data (dict_set d nm (add_phone (set_phones r []) phone)) ;;;
      save_to_disk ;;;
      ret ("Phone number for contact " ++ nm ++ " has been updated to " ++ phone ++ ".")
  | None => ret ("Contact " ++ nm ++ " does not exist.")
  end.

Definition phone_contact (nm : string) : M string :=
  d <- get_data ;;
  match dict_get d nm with
  | Some r =>
      ret ("Phone number for contact " ++ nm ++ ": " ++ join ", " (phones r))
  | None => ret ("Contact " ++ nm ++ " does not exist.")
  end.

Definition newline : string := String (ascii_of_N 10) EmptyString.

Definition show_line (kv : string * record) : string :=
  fst kv ++ ": " ++ join ", " (phones (snd kv)).

Definition show_all_contacts : M string :=
  d <- get_data ;;
  match d with
  | [] => ret "No contacts found."
  | _ => ret ("Contacts:" ++ newline ++ join newline (map show_line d))
  end.

Definition hello : string := "How can I help you?".

(** ** One iteration of the loop in [main]

    [handle_command] receives [input(...).lower().split()].  It returns
    [false] when the loop breaks. *)
Definition invalid_command : string := "Invalid command. Please try again.".

Definition is_exit_word (w : string) : bool :=
  String.eqb w "good" || String.eqb w "bye" || String.eqb w "close"
  || String.eqb w "exit" || String.eqb w ".".

Definition handle_command (command : list string) : M bool :=
  match command with
  | [] => print invalid_command ;;; ret true
  | verb :: args =>
      if String.eqb verb "hello" then print hello ;;; ret true
      else if String.eqb verb "add" then
        match args with
        | [nm; phone] => s <- add_contact nm phone ;; print s ;;; ret true
        | _ => print invalid_command ;;; ret true
        end
      else if String.eqb verb "change" then
        match args with
        | [nm; phone] => s <- change_contact nm phone ;; print s ;;; ret true
        | _ => print invalid_command ;;; ret true
        end
      else if String.eqb verb "phone" then
        match args with
        | [nm] => s <- phone_contact nm ;; print s ;;; ret true
        | _ => print invalid_command ;;; ret true
        end
      else if String.eqb verb "show" then
        match args with
        | [what] =>
            if String.eqb what "all"
            then s <- show_all_contacts ;; print s ;;; ret true
            else s <- phone_contact what ;; print s ;;; ret true
        | _ => print invalid_command ;;; ret true
        end
      else if is_exit_word verb then
        save_to_disk ;;; print "Goodbye!" ;;; ret false
      else print invalid_command ;;; ret true
  end.

Definition handle_line (line : string) : M bool :=
  handle_command (split (lower line)).

(** The loop over the lines typed, until an exit word.  When the input is
    exhausted [input] raises [EOFError], which nothing catches. *)
Fixpoint run_lines (lines : list string) : M unit :=
  match lines with
  | [] => raise EOFError
  | line :: rest =>
      continue <- handle_line line ;;
      if continue then run_lines rest else ret tt
  end.

(** [main]: a book with the default path, loaded, then the loop. *)
Definition initial_state (fs : gmap string (node (dict record))) : state :=
  mkState (mkBook [] (Some "address_book.pkl")) fs [].

Definition main (lines : list string) : M unit :=
  load_from_disk ;;; run_lines lines.

(** ** Representation invariant of the address book

    Every key is the name of the record stored under it, and names are
    non-empty (the [Name] field accepts nothing else at construction). *)
Definition entry_ok (kv : string * record) : bool :=
  String.eqb (name (snd kv)) (fst kv) && truthy (fst kv).

Definition book_ok (d : dict record) : bool := forallb entry_ok d.

(** The year of the occurrence [days_to_birthday] ends up constructing:
    next year when this year's occurrence exists and lies before today,
    the current year otherwise. *)
Definition occurrence_year (today b : date) : Z :=
  if valid_ymd (year today) (month b) (day b)
     && date_ltb (mkDate (year today) (month b) (day b)) today
  then year today + 1
  else year today.

(** [m] returns (does not raise) from [st]. *)
Definition returns {A} (m : M A) (st : state) : Prop :=
  exists a st', m st = (Ok a, st').

(** The invariant of the whole state: the book is sound and so is every
    mapping that can be read from the disk. *)
Definition disk_ok (fs : gmap string (node (dict record))) : Prop :=
  forall path d, read_pickle path fs = Ok d -> book_ok d = true.

Definition inv (st : state) : Prop :=
  book_ok (data (book st)) = true /\ disk_ok (disk st).

Definition preserves {A} (m : M A) : Prop :=
  forall st, inv st -> inv (snd (m st)).

(** ** Notions used to state further properties *)

(** The date [n] calendar days after [d]. *)
Definition days_later (n : nat) (d : date) : date := Nat.iter n next_day d.

(** [m] keeps the property [I] of states, whether it returns or raises. *)
Definition keeps {A} (I : state -> Prop) (m : M A) : Prop :=
  forall st, I st -> I (snd (m st)).

(** The path [main] works with: the default of [AddressBook.__init__]. *)
Definition default_path : string := "address_book.pkl".

(** The content of the regular file at [path], whatever its permissions. *)
Definition content_at (fs : gmap string (node (dict record))) (path : string)
    : option (file_content (dict record)) :=
  match fs !! path with
  | Some (File c) | Some (ReadOnlyFile c) | Some (WriteOnlyFile c) => Some c
  | _ => None
  end.

(** How the reports of [save_to_disk] and [load_from_disk] begin, and
    whether one of the messages printed is such a report. *)
Definition save_error : string := "Error occurred while saving to disk: ".

Definition load_error : string := "Error occurred while loading from disk: ".

Definition reported (report : string) (out : list string) : bool :=
  existsb (String.prefix report) out.

(** The state a newly started process begins its loop in: the book [main]
    builds, after [load_from_disk]. *)
Definition restart (fs : gmap string (node (dict record))) : state :=
  snd (load_from_disk (initial_state fs)).

(** The book works on the default path and, unless a failed save has been
    reported, a restart that reports no failed load begins with exactly
    the mapping now in memory. *)
Definition in_step (st : state) : Prop :=
  file_path (book st) = Some default_path
  /\ (reported save_error (printed st) = false ->
      reported load_error (printed (restart (disk st))) = false ->
      data (book (restart (disk st))) = data (book st)).

(** The first word of the line is an exit word. *)
Definition is_exit_line (line : string) : bool :=
  match split (lower line) with
  | w :: _ => is_exit_word w
  | [] => false
  end.

(** Every character of [s] satisfies [p]. *)
Fixpoint string_forall (p : ascii -> bool) (s : string) : bool :=
  match s with
  | EmptyString => true
  | String c r => p c && string_forall p r
  end.

(** A word as the loop can hand it to a command: non-empty, without
    whitespace, and unchanged by [str.lower]. *)
Definition word_char (c : ascii) : bool :=
  negb (is_space c) && Ascii.eqb (lower_char c) c.

Definition is_word (s : string) : bool := truthy s && string_forall word_char s.

Definition keys_are_words (d : dict record) : bool := forallb is_word (dict_keys d).

Definition words_kept (st : state) : Prop :=
  keys_are_words (data (book st)) = true.

(** What a pattern [^[class]+$] accepts: a non-empty run of the class,
    optionally followed by one final newline. *)
Definition accepted (cls : ascii -> bool) (s : string) : Prop :=
  exists w, truthy w = true /\ string_forall cls w = true
            /\ (s = w \/ s = w ++ newline).

(** * Properties *)

(** ** Facts about [dict] *)

Section DictFacts.
Context {V : Type}.
Implicit Types (d : dict V) (k : string) (v : V).

Lemma dict_get_set_eq d k v : dict_get (dict_set d k v) k = Some v.
Proof.
  induction d as [|[k' v'] d IH]; simpl.
  - now rewrite String.eqb_refl.
  - destruct (String.eqb k k') eqn:E; simpl.
    + now rewrite String.eqb_refl.
    + now rewrite E.
Qed.

Lemma dict_get_set_ne d k k' v :
  k <> k' -> dict_get (dict_set d k v) k' = dict_get d k'.
Proof.
  intros Hne. induction d as [|[k0 v0] d IH]; simpl.
  - destruct (String.eqb k' k) eqn:E; [|reflexivity].
    apply String.eqb_eq in E. congruence.
  - destruct (String.eqb k k0) eqn:E; simpl.
    + apply String.eqb_eq in E. subst k0.
      destruct (String.eqb k' k) eqn:E'; [|reflexivity].
      apply String.eqb_eq in E'. congruence.
    + now rewrite IH.
Qed.

Lemma dict_get_remove_eq d k : dict_get (dict_remove d k) k = None.
Proof.
  induction d as [|[k' v'] d IH]; simpl; [reflexivity|].
  destruct (String.eqb k k') eqn:E; simpl; [assumption|].
  now rewrite E.
Qed.

Lemma dict_get_remove_ne d k k' :
  k <> k' -> dict_get (dict_remove d k) k' = dict_get d k'.
Proof.
  intros Hne. induction d as [|[k0 v0] d IH]; simpl; [reflexivity|].
  destruct (String.eqb k k0) eqn:E; simpl.
  - apply String.eqb_eq in E. subst k0.
    destruct (String.eqb k' k) eqn:E'; [|assumption].
    apply String.eqb_eq in E'. congruence.
  - now rewrite IH.
Qed.

(** Assigning to a key that is present adds no entry and moves none. *)
Lemma dict_keys_set_present d k v :
  dict_contains d k = true -> dict_keys (dict_set d k v) = dict_keys d.
Proof.
  unfold dict_contains, dict_keys.
  induction d as [|[k' v'] d IH]; simpl; [discriminate|].
  destruct (String.eqb k k') eqn:E; simpl; intros H.
  - apply String.eqb_eq in E. now subst.
  - now rewrite IH.
Qed.

Lemma dict_contains_set d k v : dict_contains (dict_set d k v) k = true.
Proof. unfold dict_contains. now rewrite dict_get_set_eq. Qed.

(** Removal only drops entries. *)
Lemma dict_get_remove_Some d k k' v :
  dict_get (dict_remove d k) k' = Some v -> dict_get d k' = Some v.
Proof.
  destruct (String.eqb k k') eqn:E.
  - apply String.eqb_eq in E. subst. now rewrite dict_get_remove_eq.
  - apply String.eqb_neq in E. now rewrite dict_get_remove_ne.
Qed.
End DictFacts.

(** ** Facts about [str] *)

Lemma re_match_plus_eol_truthy cls s :
  re_match_plus_eol cls s = true -> truthy s = true.
Proof. destruct s; simpl; [discriminate | reflexivity]. Qed.

Lemma Name_validate_truthy s : truthy s = true -> Name_validate s = Ok tt.
Proof. unfold Name_validate. now intros ->. Qed.

Lemma Name_validate_falsy s :
  truthy s = false -> Name_validate s = Raise (ValueError "Name field is required.").
Proof. unfold Name_validate. now intros ->. Qed.

(** ** The command layer *)

(** What [save_to_disk] leaves alone: it never raises, and the book is the
    one it started from. *)
Lemma save_to_disk_ok st :
  fst (save_to_disk st) = Ok tt /\ book (snd (save_to_disk st)) = book st.
Proof.
  unfold save_to_disk.
  destruct (configured_path (book st)) as [path|]; [|now split].
  destruct (write_pickle path (data (book st)) (disk st)) as [[[]|e] fs];
    now split.
Qed.

Lemma add_contact_truthy st nm phone :
  truthy nm = true ->
  add_contact nm phone st =
    (Ok ("Contact " ++ nm ++ " with phone number " ++ phone ++ " has been added."),
     snd (save_to_disk
            (set_data (dict_set (data (book st)) nm (mkRecord nm [phone] None)) st))).
Proof.
  intros Hnm. unfold add_contact, new_record, add_record, bind, lift, get_data,
    put_data, ret, add_phone.
  rewrite (Name_validate_truthy _ Hnm). simpl.
  match goal with |- context [save_to_disk ?s] =>
    pose proof (save_to_disk_ok s) as [Hr _];
    destruct (save_to_disk s) as [[[]|e] st']; simpl in *
  end; [reflexivity | discriminate].
Qed.

Lemma add_contact_data st nm phone :
  truthy nm = true ->
  data (book (snd (add_contact nm phone st))) =
    dict_set (data (book st)) nm (mkRecord nm [phone] None).
Proof.
  intros Hnm. rewrite add_contact_truthy by assumption. simpl.
  match goal with |- context [save_to_disk ?s] =>
    pose proof (save_to_disk_ok s) as [_ Hb]; rewrite Hb
  end.
  reflexivity.
Qed.

Lemma phone_contact_present st nm r :
  dict_get (data (book st)) nm = Some r ->
  phone_contact nm st =
    (Ok ("Phone number for contact " ++ nm ++ ": " ++ join ", " (phones r)), st).
Proof.
  intros H. unfold phone_contact, bind, get_data, ret. now rewrite H.
Qed.

Lemma phone_contact_absent st nm :
  dict_get (data (book st)) nm = None ->
  phone_contact nm st = (Ok ("Contact " ++ nm ++ " does not exist."), st).
Proof.
  intros H. unfold phone_contact, bind, get_data, ret. now rewrite H.
Qed.

(** C2.  For a name accepted by [^[A-Za-z ]+$] and a phone accepted by
    [^\d+$], [add] returns its confirmation, the record stored under the
    name holds exactly that phone, and [phone] for the name then returns
    "Phone number for contact <name>: <phone>" without changing the
    state. *)
Theorem add_then_phone st nm phone :
  match_name nm = true ->
  match_phone phone = true ->
  let st1 := snd (add_contact nm phone st) in
  fst (add_contact nm phone st) =
    Ok ("Contact " ++ nm ++ " with phone number " ++ phone ++ " has been added.")
  /\ dict_get (data (book st1)) nm = Some (mkRecord nm [phone] None)
  /\ phone_contact nm st1 =
       (Ok ("Phone number for contact " ++ nm ++ ": " ++ phone), st1).
Proof.
  intros Hn _ st1.
  apply re_match_plus_eol_truthy in Hn.
  assert (Hget : dict_get (data (book st1)) nm = Some (mkRecord nm [phone] None)).
  { subst st1. rewrite add_contact_data by assumption. apply dict_get_set_eq. }
  split; [|split].
  - now rewrite add_contact_truthy.
  - exact Hget.
  - now rewrite (phone_contact_present _ _ _ Hget).
Qed.

Lemma add_then_phone_witness :
  match_name "alice" = true /\ match_phone "12345" = true /\
  let st1 := snd (add_contact "alice" "12345" (initial_state ∅)) in
  fst (add_contact "alice" "12345" (initial_state ∅)) =
    Ok "Contact alice with phone number 12345 has been added."
  /\ dict_get (data (book st1)) "alice" = Some (mkRecord "alice" ["12345"] None)
  /\ phone_contact "alice" st1 =
       (Ok "Phone number for contact alice: 12345", st1).
Proof.
  split; [reflexivity | split; [reflexivity |]].
  apply (add_then_phone (initial_state ∅) "alice" "12345"); reflexivity.
Defined.

(** The empty name is refused by the [Name] field before anything is
    stored. *)
Lemma add_contact_falsy st nm phone :
  truthy nm = false ->
  add_contact nm phone st = (Raise (ValueError "Name field is required."), st).
Proof.
  intros Hnm. unfold add_contact, new_record, bind, lift.
  now rewrite (Name_validate_falsy _ Hnm).
Qed.

(** C3, as stated, fails for the empty name: both calls raise
    [ValueError] and no record is stored under that name. *)
Lemma add_twice_empty_name_counterexample :
  let st0 := initial_state ∅ in
  let st1 := snd (add_contact EmptyString "111" st0) in
  let st2 := snd (add_contact EmptyString "222" st1) in
  fst (add_contact EmptyString "222" st1)
    = Raise (ValueError "Name field is required.")
  /\ dict_get (data (book st2)) EmptyString = None.
Proof. split; reflexivity. Qed.

(** C3 (amended).  For every state and every non-empty name, two [add]
    calls with that name both return their confirmation; afterwards the
    name maps to a record holding only the second phone, the second call
    has created no further key, and the mapping is the one left by the first
    call with that single entry reassigned. *)
Theorem add_twice_overwrites st nm phone1 phone2 :
  truthy nm = true ->
  let st1 := snd (add_contact nm phone1 st) in
  let st2 := snd (add_contact nm phone2 st1) in
  fst (add_contact nm phone1 st) =
    Ok ("Contact " ++ nm ++ " with phone number " ++ phone1 ++ " has been added.")
  /\ fst (add_contact nm phone2 st1) =
    Ok ("Contact " ++ nm ++ " with phone number " ++ phone2 ++ " has been added.")
  /\ dict_get (data (book st2)) nm = Some (mkRecord nm [phone2] None)
  /\ dict_keys (data (book st2)) = dict_keys (data (book st1))
  /\ data (book st2) = dict_set (data (book st1)) nm (mkRecord nm [phone2] None).
Proof.
  intros Hnm st1 st2.
  assert (H2 : data (book st2) = dict_set (data (book st1)) nm (mkRecord nm [phone2] None)).
  { subst st2. now rewrite add_contact_data. }
  repeat split.
  - now rewrite add_contact_truthy.
  - now rewrite add_contact_truthy.
  - rewrite H2. apply dict_get_set_eq.
  - rewrite H2. apply dict_keys_set_present.
    subst st1. rewrite add_contact_data by assumption. apply dict_contains_set.
  - exact H2.
Qed.

Lemma add_twice_overwrites_witness :
  truthy "alice" = true /\
  let st1 := snd (add_contact "alice" "111" (initial_state ∅)) in
  let st2 := snd (add_contact "alice" "222" st1) in
  dict_get (data (book st2)) "alice" = Some (mkRecord "alice" ["222"] None)
  /\ dict_keys (data (book st2)) = dict_keys (data (book st1)).
Proof.
  split; [reflexivity |].
  pose proof (add_twice_overwrites (initial_state ∅) "alice" "111" "222" eq_refl)
    as (_ & _ & Hget & Hkeys & _).
  split; [exact Hget | exact Hkeys].
Defined.

Lemma change_contact_missing st nm phone :
  dict_get (data (book st)) nm = None ->
  change_contact nm phone st = (Ok ("Contact " ++ nm ++ " does not exist."), st).
Proof.
  intros H. unfold change_contact, bind, get_data, ret. now rewrite H.
Qed.

(** C4.  [change] for a name that is not a key returns exactly
    "Contact <name> does not exist." and leaves the whole state (mapping,
    disk and output) as it was. *)
Theorem change_contact_absent st nm phone :
  dict_get (data (book st)) nm = None ->
  change_contact nm phone st = (Ok ("Contact " ++ nm ++ " does not exist."), st).
Proof. apply change_contact_missing. Qed.

Lemma change_contact_absent_witness :
  dict_get (data (book (initial_state ∅))) "carol" = None /\
  change_contact "carol" "42" (initial_state ∅) =
    (Ok "Contact carol does not exist.", initial_state ∅).
Proof.
  split; [reflexivity |].
  apply (change_contact_absent (initial_state ∅) "carol" "42"). reflexivity.
Defined.

Lemma remove_record_present st r r0 :
  dict_get (data (book st)) (name r) = Some r0 ->
  remove_record r st =
    save_to_disk (set_data (dict_remove (data (book st)) (name r)) st).
Proof.
  intros E. unfold remove_record, del_item, bind, get_data, dict_contains, put_data.
  now rewrite E.
Qed.

Lemma remove_record_absent st r :
  dict_get (data (book st)) (name r) = None ->
  remove_record r st = (Raise (KeyError (name r)), st).
Proof.
  intros E. unfold remove_record, del_item, bind, get_data, dict_contains, raise.
  now rewrite E.
Qed.

(** C5.  [remove_record]: when the record's name is not a key, [KeyError]
    is raised and the state is untouched; when it is, the call returns,
    the mapping is the old one without that key, and [phone] for the name
    then answers "Contact <name> does not exist.". *)
Theorem remove_record_spec st r :
  match dict_get (data (book st)) (name r) with
  | None => remove_record r st = (Raise (KeyError (name r)), st)
  | Some _ =>
      let st' := snd (remove_record r st) in
      fst (remove_record r st) = Ok tt
      /\ data (book st') = dict_remove (data (book st)) (name r)
      /\ dict_get (data (book st')) (name r) = None
      /\ phone_contact (name r) st' =
           (Ok ("Contact " ++ name r ++ " does not exist."), st')
  end.
Proof.
  destruct (dict_get (data (book st)) (name r)) as [r0|] eqn:E.
  - rewrite (remove_record_present _ _ _ E).
    match goal with |- context [save_to_disk ?s] =>
      pose proof (save_to_disk_ok s) as [Hr Hb]
    end.
    cbv zeta. rewrite Hb. simpl.
    assert (Hnone : dict_get (dict_remove (data (book st)) (name r)) (name r) = None)
      by apply dict_get_remove_eq.
    repeat split; try assumption.
    apply phone_contact_absent. now rewrite Hb.
  - now apply remove_record_absent.
Qed.

(** ** Renaming *)

Lemma edit_record_name_absent st old_name new_name :
  dict_get (data (book st)) old_name = None ->
  edit_record_name old_name new_name st = (Raise (KeyError old_name), st).
Proof.
  intros H. unfold edit_record_name, pop_item, bind, get_data, raise.
  now rewrite H.
Qed.

Lemma edit_record_name_falsy st old_name new_name r :
  dict_get (data (book st)) old_name = Some r ->
  truthy new_name = false ->
  edit_record_name old_name new_name st =
    (Raise (ValueError "Name field is required."),
     set_data (dict_remove (data (book st)) old_name) st).
Proof.
  intros H Hnew.
  unfold edit_record_name, pop_item, bind, get_data, put_data, ret, Name_set, lift.
  rewrite H. now rewrite (Name_validate_falsy _ Hnew).
Qed.

Lemma edit_record_name_truthy st old_name new_name r :
  dict_get (data (book st)) old_name = Some r ->
  truthy new_name = true ->
  edit_record_name old_name new_name st =
    save_to_disk
      (set_data (dict_set (dict_remove (data (book st)) old_name) new_name
                          (set_name r new_name)) st).
Proof.
  intros H Hnew.
  unfold edit_record_name, pop_item, bind, get_data, put_data, ret, Name_set, lift.
  rewrite H. now rewrite (Name_validate_truthy _ Hnew).
Qed.

(** C6, as stated, fails in two ways.  With an empty new name the call
    raises [ValueError] and the record ends up under no key; with the new
    name equal to the old one the record is still under the old key
    afterwards. *)
Lemma edit_record_name_counterexample :
  let st := mkState (mkBook [("alice", mkRecord "alice" ["111"] None)] None) ∅ [] in
  dict_get (data (book st)) "alice" = Some (mkRecord "alice" ["111"] None)
  /\ (fst (edit_record_name "alice" EmptyString st)
        = Raise (ValueError "Name field is required.")
      /\ dict_get (data (book (snd (edit_record_name "alice" EmptyString st))))
           EmptyString = None)
  /\ (fst (edit_record_name "alice" "alice" st) = Ok tt
      /\ dict_get (data (book (snd (edit_record_name "alice" "alice" st)))) "alice"
           <> None).
Proof. repeat split; try reflexivity. discriminate. Qed.

(** C6 (amended).  For a non-empty new name: when [old] is a key holding
    record [r], the call returns, the mapping becomes the old one with
    [old] removed and [new] assigned [r] renamed (same phones, same
    birthday, name [new]), so [new] maps to that record and [old] is
    absent unless it is [new] itself; when [old] is not a key, [KeyError]
    is raised and the state is untouched. *)
Theorem edit_record_name_spec st old_name new_name :
  truthy new_name = true ->
  match dict_get (data (book st)) old_name with
  | Some r =>
      let st' := snd (edit_record_name old_name new_name st) in
      let r' := mkRecord new_name (phones r) (birthday r) in
      fst (edit_record_name old_name new_name st) = Ok tt
      /\ data (book st') =
           dict_set (dict_remove (data (book st)) old_name) new_name r'
      /\ dict_get (data (book st')) new_name = Some r'
      /\ dict_get (data (book st')) old_name =
           (if String.eqb old_name new_name then Some r' else None)
  | None =>
      edit_record_name old_name new_name st = (Raise (KeyError old_name), st)
  end.
Proof.
  intros Hnew.
  destruct (dict_get (data (book st)) old_name) as [r|] eqn:E.
  - rewrite (edit_record_name_truthy _ _ _ _ E Hnew).
    match goal with |- context [save_to_disk ?s] =>
      pose proof (save_to_disk_ok s) as [Hr Hb]
    end.
    cbv zeta. rewrite Hb. simpl. unfold set_name.
    repeat split; try assumption.
    + apply dict_get_set_eq.
    + destruct (String.eqb old_name new_name) eqn:En.
      * apply String.eqb_eq in En. subst. apply dict_get_set_eq.
      * apply String.eqb_neq in En.
        rewrite dict_get_set_ne by congruence. apply dict_get_remove_eq.
  - now apply edit_record_name_absent.
Qed.

Lemma edit_record_name_spec_witness :
  let st := mkState (mkBook [("alice", mkRecord "alice" ["111"] None)] None) ∅ [] in
  truthy "bob" = true /\
  fst (edit_record_name "alice" "bob" st) = Ok tt /\
  dict_get (data (book (snd (edit_record_name "alice" "bob" st)))) "bob"
    = Some (mkRecord "bob" ["111"] None) /\
  dict_get (data (book (snd (edit_record_name "alice" "bob" st)))) "alice" = None.
Proof.
  intros st. split; [reflexivity |].
  pose proof (edit_record_name_spec st "alice" "bob" eq_refl) as H.
  simpl in H. destruct H as (H1 & _ & H3 & H4).
  split; [exact H1 | split; [exact H3 | exact H4]].
Defined.

(** What the invariant says about a lookup. *)
Lemma book_ok_get d k r :
  book_ok d = true -> dict_get d k = Some r -> name r = k /\ truthy k = true.
Proof.
  unfold book_ok. induction d as [|[k' r'] d IH]; simpl; [discriminate|].
  intros Hok H. apply andb_true_iff in Hok as [He Hd].
  destruct (String.eqb k k') eqn:E.
  - apply String.eqb_eq in E. subst k'. injection H as <-.
    unfold entry_ok in He. simpl in He.
    apply andb_true_iff in He as [Hn Ht]. apply String.eqb_eq in Hn. now split.
  - now apply IH.
Qed.

Lemma book_ok_falsy_absent d k :
  book_ok d = true -> truthy k = false -> dict_get d k = None.
Proof.
  intros Hok Hk. destruct (dict_get d k) as [r|] eqn:E; [|reflexivity].
  apply (book_ok_get _ _ _ Hok) in E as [_ Ht]. congruence.
Qed.

Lemma book_ok_remove d k : book_ok d = true -> book_ok (dict_remove d k) = true.
Proof.
  unfold book_ok. induction d as [|[k' r'] d IH]; simpl; [reflexivity|].
  intros Hok. apply andb_true_iff in Hok as [He Hd].
  destruct (String.eqb k k'); simpl; [now apply IH|].
  rewrite He. now apply IH.
Qed.

Lemma book_ok_set d k r :
  book_ok d = true -> name r = k -> truthy k = true ->
  book_ok (dict_set d k r) = true.
Proof.
  unfold book_ok. intros Hok Hn Ht.
  assert (Hnew : entry_ok (k, r) = true).
  { unfold entry_ok. simpl. rewrite Hn, String.eqb_refl. exact Ht. }
  induction d as [|[k' r'] d IH]; simpl.
  - now rewrite Hnew.
  - simpl in Hok. apply andb_true_iff in Hok as [He Hd].
    destruct (String.eqb k k'); simpl.
    + now rewrite Hnew.
    + rewrite He. now apply IH.
Qed.

(** C9.  When [old] is a key, renaming to a falsy (empty) name raises the
    [Name] field's [ValueError], and the state left behind is the initial
    one with the entry for [old] removed and nothing saved: [old] is no
    longer a key, nothing has been stored under [new] (whatever the book
    held there before the call is all there is), and in a sound book,
    where every key is the non-empty name of its record, [new] is not a
    key at all.  The record is lost. *)
Theorem edit_record_name_not_atomic st old_name new_name r :
  dict_get (data (book st)) old_name = Some r ->
  truthy new_name = false ->
  let st' := snd (edit_record_name old_name new_name st) in
  edit_record_name old_name new_name st =
    (Raise (ValueError "Name field is required."),
     set_data (dict_remove (data (book st)) old_name) st)
  /\ dict_get (data (book st')) old_name = None
  /\ dict_get (data (book st')) new_name =
       (if String.eqb old_name new_name then None
        else dict_get (data (book st)) new_name)
  /\ (book_ok (data (book st)) = true ->
      dict_get (data (book st')) new_name = None)
  /\ disk st' = disk st.
Proof.
  intros H Hnew st'. subst st'.
  rewrite (edit_record_name_falsy _ _ _ _ H Hnew). simpl.
  repeat split.
  - apply dict_get_remove_eq.
  - destruct (String.eqb old_name new_name) eqn:E.
    + apply String.eqb_eq in E. subst. apply dict_get_remove_eq.
    + apply String.eqb_neq in E. now apply dict_get_remove_ne.
  - intros Hok.
    apply book_ok_falsy_absent; [now apply book_ok_remove | assumption].
Qed.

Lemma edit_record_name_not_atomic_witness :
  let st := mkState (mkBook [("alice", mkRecord "alice" ["111"] None)]
                            (Some "address_book.pkl")) ∅ [] in
  book_ok (data (book st)) = true /\
  dict_get (data (book st)) "alice" = Some (mkRecord "alice" ["111"] None) /\
  truthy EmptyString = false /\
  edit_record_name "alice" EmptyString st =
    (Raise (ValueError "Name field is required."), set_data [] st).
Proof.
  intros st. repeat (split; [reflexivity |]).
  apply (edit_record_name_not_atomic st "alice" EmptyString
           (mkRecord "alice" ["111"] None)); reflexivity.
Defined.

(** ** The calendar *)

Lemma days_before_year_mono y y' :
  y <= y' -> days_before_year y <= days_before_year y'.
Proof.
  unfold days_before_year. intros H. cbv zeta. Z.div_mod_to_equations. lia.
Qed.

Lemma days_before_year_succ y :
  days_before_year (y + 1) =
    days_before_year y + (if is_leap y then 366 else 365).
Proof.
  unfold days_before_year, is_leap. cbv zeta.
  replace (y + 1 - 1) with y by lia.
  destruct (y mod 4 =? 0) eqn:E4; destruct (y mod 100 =? 0) eqn:E100;
    destruct (y mod 400 =? 0) eqn:E400; simpl;
    Z.div_mod_to_equations; lia.
Qed.

Lemma is_leap_succ y : is_leap y = true -> is_leap (y + 1) = false.
Proof. unfold is_leap. Z.div_mod_to_equations. lia. Qed.

Lemma valid_ymd_md y m d : valid_ymd y m d = true -> valid_md y m d = true.
Proof. unfold valid_ymd. lia. Qed.

Lemma valid_ymd_year y m d :
  valid_ymd y m d = true -> MINYEAR <= y <= MAXYEAR.
Proof. unfold valid_ymd. lia. Qed.

Lemma valid_md_month y m d :
  valid_md y m d = true ->
  m = 1 \/ m = 2 \/ m = 3 \/ m = 4 \/ m = 5 \/ m = 6 \/
  m = 7 \/ m = 8 \/ m = 9 \/ m = 10 \/ m = 11 \/ m = 12.
Proof. unfold valid_md. lia. Qed.

Lemma valid_md_day y m d :
  valid_md y m d = true -> 1 <= d <= days_in_month y m.
Proof. unfold valid_md. lia. Qed.

(** Case analysis on the month of a date known to be valid. *)
Ltac month_cases H :=
  let Hm := fresh "Hm" in
  let Hd := fresh "Hd" in
  pose proof (valid_md_month _ _ _ H) as Hm;
  pose proof (valid_md_day _ _ _ H) as Hd;
  repeat (destruct Hm as [Hm | Hm]); subst.

Ltac month_tables :=
  unfold days_in_month, days_before_month, days_before_month_common in *;
  simpl in *.

(** The day of the year of a valid date lies within the year. *)
Lemma day_of_year_bounds y m d :
  valid_md y m d = true ->
  1 <= days_before_month y m + d <= (if is_leap y then 366 else 365).
Proof.
  intros H. month_cases H; month_tables; destruct (is_leap y); simpl in *; lia.
Qed.

(** Within one year the day of the year follows (month, day). *)
Lemma day_of_year_lt y m1 d1 m2 d2 :
  valid_md y m1 d1 = true -> valid_md y m2 d2 = true ->
  m1 < m2 \/ (m1 = m2 /\ d1 < d2) ->
  days_before_month y m1 + d1 < days_before_month y m2 + d2.
Proof.
  intros H1 H2 Hlt. month_cases H1; month_cases H2; month_tables;
    destruct (is_leap y); simpl in *; lia.
Qed.

Lemma toordinal_bounds y m d :
  valid_md y m d = true ->
  days_before_year y < toordinal (mkDate y m d) <= days_before_year (y + 1).
Proof.
  intros H. pose proof (day_of_year_bounds _ _ _ H) as Hb.
  unfold toordinal. simpl. rewrite days_before_year_succ.
  destruct (is_leap y); lia.
Qed.

(** [toordinal] is strictly increasing along the order on dates. *)
Lemma toordinal_lt a b :
  valid_md (year a) (month a) (day a) = true ->
  valid_md (year b) (month b) (day b) = true ->
  date_ltb a b = true -> toordinal a < toordinal b.
Proof.
  destruct a as [ya ma da], b as [yb mb db]. unfold date_ltb. simpl.
  intros Ha Hb Hlt.
  destruct (Z.eq_dec ya yb) as [->|Hne].
  - unfold toordinal. simpl.
    pose proof (day_of_year_lt yb ma da mb db Ha Hb). lia.
  - pose proof (toordinal_bounds _ _ _ Ha) as [_ Hua].
    pose proof (toordinal_bounds _ _ _ Hb) as [Hlb _].
    pose proof (days_before_year_mono (ya + 1) yb). lia.
Qed.

(** One year later, the same month and day is 365 or 366 days away. *)
Lemma toordinal_next_year y m d :
  valid_md y m d = true -> valid_md (y + 1) m d = true ->
  365 <= toordinal (mkDate (y + 1) m d) - toordinal (mkDate y m d) <= 366.
Proof.
  intros H1 H2. unfold toordinal. simpl. rewrite days_before_year_succ.
  pose proof (is_leap_succ y) as Hl.
  month_cases H1; unfold days_before_month, days_before_month_common; simpl;
    destruct (is_leap y); destruct (is_leap (y + 1)); simpl;
    try lia; discriminate (Hl eq_refl).
Qed.

(** The ordinal counts calendar days: the day after has the next ordinal,
    so a date reached by [n] steps of [next_day] is [n] days away. *)
Lemma next_day_valid d :
  valid_md (year d) (month d) (day d) = true ->
  valid_md (year (next_day d)) (month (next_day d)) (day (next_day d)) = true.
Proof.
  destruct d as [y m d]. simpl. intros H. unfold next_day. simpl.
  destruct (d <? days_in_month y m) eqn:Hd; simpl.
  - unfold valid_md in *. lia.
  - destruct (m <? 12) eqn:Hm; simpl.
    + month_cases H; try discriminate; unfold valid_md, days_in_month; simpl;
        destruct (is_leap y); reflexivity.
    + reflexivity.
Qed.

Lemma toordinal_next_day d :
  valid_md (year d) (month d) (day d) = true ->
  toordinal (next_day d) = toordinal d + 1.
Proof.
  destruct d as [y m d]. simpl. intros H. unfold next_day, toordinal. simpl.
  destruct (d <? days_in_month y m) eqn:Hd; simpl; [lia|].
  destruct (m <? 12) eqn:Hm; simpl.
  - month_cases H; try discriminate; month_tables;
      destruct (is_leap y); simpl in *; lia.
  - rewrite days_before_year_succ.
    month_cases H; try discriminate. month_tables.
    destruct (is_leap y); simpl in *; lia.
Qed.

Lemma days_between_next_days n d :
  valid_md (year d) (month d) (day d) = true ->
  valid_md (year (Nat.iter n next_day d)) (month (Nat.iter n next_day d))
           (day (Nat.iter n next_day d)) = true
  /\ days_between d (Nat.iter n next_day d) = Z.of_nat n.
Proof.
  intros H. induction n as [|n [IHv IHd]].
  - split; [assumption | unfold days_between; simpl; lia].
  - simpl Nat.iter. split; [now apply next_day_valid|].
    unfold days_between in *. rewrite toordinal_next_day by assumption. lia.
Qed.

Lemma new_date_valid y m d :
  valid_ymd y m d = true -> new_date y m d = Ok (mkDate y m d).
Proof.
  unfold valid_ymd, valid_md, new_date. intros H.
  repeat rewrite andb_true_iff in H. destruct H as [[-> ->] [[[-> ->] ->] ->]].
  reflexivity.
Qed.

Lemma new_date_invalid y m d :
  valid_ymd y m d = false -> exists msg, new_date y m d = Raise (ValueError msg).
Proof.
  unfold valid_ymd, valid_md, new_date. intros H.
  destruct ((MINYEAR <=? y) && (y <=? MAXYEAR)); simpl in *; [|eauto].
  destruct ((1 <=? m) && (m <=? 12)); simpl in *; [|eauto].
  destruct (1 <=? d); simpl in *; [|eauto].
  rewrite H. simpl. eauto.
Qed.

(** ** Days to the next birthday *)

(** C7, as stated, fails for a birthday on February 29: on 2024-03-01 this
    year's occurrence (2024-02-29) exists and lies strictly before today,
    yet no day count is returned; building 2025-02-29 raises. *)
Lemma days_to_birthday_counterexample :
  let r := mkRecord "alice" [] (Some (mkDate 2000 2 29)) in
  let today := mkDate 2024 3 1 in
  valid_date (mkDate 2000 2 29) = true
  /\ valid_date today = true
  /\ valid_date (mkDate 2024 2 29) = true
  /\ date_ltb (mkDate 2024 2 29) today = true
  /\ days_to_birthday r today = Raise (ValueError "day is out of range for month").
Proof. repeat split; reflexivity. Qed.

(** C7 (amended).  For every record and every current date: without a
    birthday the result is [None].  Otherwise, when this year's occurrence
    of the birthday's month and day is not a calendar date, [ValueError]
    is raised; when month and day are today's, the result is 0; when this
    year's occurrence lies strictly before today, the result is the day
    count from today to next year's occurrence, between 1 and 365,
    provided that occurrence is a calendar date, and [ValueError] is
    raised if it is not; in the remaining case the result is the day
    count to this year's occurrence, between 1 and 365. *)
Theorem days_to_birthday_spec r today :
  valid_date today = true ->
  match birthday r with
  | None => days_to_birthday r today = Ok None
  | Some b =>
      let this_year := mkDate (year today) (month b) (day b) in
      let next_year := mkDate (year today + 1) (month b) (day b) in
      if negb (valid_date this_year) then
        exists msg, days_to_birthday r today = Raise (ValueError msg)
      else if same_month_day b today then
        days_to_birthday r today = Ok (Some 0)
      else if date_ltb this_year today then
        if valid_date next_year then
          days_to_birthday r today = Ok (Some (days_between today next_year))
          /\ 1 <= days_between today next_year <= 365
        else exists msg, days_to_birthday r today = Raise (ValueError msg)
      else
        days_to_birthday r today = Ok (Some (days_between today this_year))
        /\ 1 <= days_between today this_year <= 365
  end.
Proof.
  intros Ht. unfold days_to_birthday.
  destruct (birthday r) as [b|]; [|reflexivity].
  cbv zeta. destruct today as [y mt dt]. simpl year.
  unfold valid_date in Ht. simpl in Ht.
  destruct (valid_date (mkDate y (month b) (day b))) eqn:Hthis; simpl negb; cbv iota.
  - unfold valid_date in Hthis. simpl in Hthis.
    rewrite (new_date_valid _ _ _ Hthis).
    destruct (same_month_day b (mkDate y mt dt)) eqn:Hsame.
    + unfold same_month_day in Hsame. simpl in Hsame.
      assert (month b = mt /\ day b = dt) as [<- <-] by lia.
      assert (Hlt : date_ltb (mkDate y (month b) (day b))
                             (mkDate y (month b) (day b)) = false)
        by (unfold date_ltb; simpl; lia).
      rewrite Hlt. unfold days_between. do 2 f_equal. lia.
    + destruct (date_ltb (mkDate y (month b) (day b)) (mkDate y mt dt)) eqn:Hlt.
      * destruct (valid_date (mkDate (y + 1) (month b) (day b))) eqn:Hnext.
        -- unfold valid_date in Hnext. simpl in Hnext.
           rewrite (new_date_valid _ _ _ Hnext). split; [reflexivity|].
           apply valid_ymd_md in Hnext, Hthis, Ht.
           pose proof (toordinal_next_year _ _ _ Hthis Hnext).
           pose proof (toordinal_lt (mkDate y (month b) (day b)) (mkDate y mt dt)
                         Hthis Ht Hlt).
           pose proof (toordinal_bounds _ _ _ Hnext) as [Hlo _].
           pose proof (toordinal_bounds _ _ _ Ht) as [_ Hhi].
           unfold days_between. lia.
        -- unfold valid_date in Hnext. simpl in Hnext.
           destruct (new_date_invalid _ _ _ Hnext) as [msg ->]. eauto.
      * split; [reflexivity|].
        assert (Hgt : date_ltb (mkDate y mt dt) (mkDate y (month b) (day b)) = true).
        { unfold date_ltb, same_month_day in *. simpl in *. lia. }
        apply valid_ymd_md in Hthis, Ht.
        pose proof (toordinal_lt (mkDate y mt dt) (mkDate y (month b) (day b))
                      Ht Hthis Hgt).
        pose proof (toordinal_bounds _ _ _ Hthis) as [_ Hhi].
        pose proof (toordinal_bounds _ _ _ Ht) as [Hlo _].
        rewrite days_before_year_succ in Hhi.
        unfold days_between. destruct (is_leap y); lia.
  - unfold valid_date in Hthis. simpl in Hthis.
    destruct (new_date_invalid _ _ _ Hthis) as [msg ->]. eauto.
Qed.

Lemma days_to_birthday_spec_witness :
  valid_date (mkDate 2024 3 1) = true /\
  days_to_birthday (mkRecord "alice" [] (Some (mkDate 2000 2 28))) (mkDate 2024 3 1)
    = Ok (Some 364).
Proof.
  split; [reflexivity |].
  pose proof (days_to_birthday_spec
                (mkRecord "alice" [] (Some (mkDate 2000 2 28)))
                (mkDate 2024 3 1) eq_refl) as H.
  simpl in H. destruct H as [H _]. exact H.
Defined.

(** C10.  For a birthday on February 29: whenever the year of the
    occurrence to be constructed (next year when this year's occurrence
    exists and has passed, the current year otherwise) is not a leap year,
    [days_to_birthday] raises the [ValueError] of the [date] constructor
    instead of returning a day count. *)
Theorem days_to_birthday_feb29 r today b :
  birthday r = Some b -> month b = 2 -> day b = 29 ->
  is_leap (occurrence_year today b) = false ->
  exists msg, days_to_birthday r today = Raise (ValueError msg).
Proof.
  intros Hb Hm Hd. unfold occurrence_year, days_to_birthday.
  rewrite Hb, Hm, Hd. destruct today as [y mt dt]. simpl year.
  destruct (valid_ymd y 2 29) eqn:Hv.
  - rewrite (new_date_valid _ _ _ Hv). simpl andb.
    destruct (date_ltb (mkDate y 2 29) (mkDate y mt dt)); intros Hrel.
    + assert (Hnext : valid_ymd (y + 1) 2 29 = false).
      { unfold valid_ymd, valid_md, days_in_month. rewrite Hrel. simpl. lia. }
      destruct (new_date_invalid _ _ _ Hnext) as [msg ->]. eauto.
    + pose proof (valid_md_day _ _ _ (valid_ymd_md _ _ _ Hv)) as Hday.
      unfold days_in_month in Hday.
      rewrite Hrel in Hday. simpl in Hday. lia.
  - destruct (new_date_invalid _ _ _ Hv) as [msg ->]. eauto.
Qed.

Lemma days_to_birthday_feb29_witness :
  let r := mkRecord "alice" [] (Some (mkDate 2000 2 29)) in
  let today := mkDate 2023 6 15 in
  birthday r = Some (mkDate 2000 2 29) /\
  is_leap (occurrence_year today (mkDate 2000 2 29)) = false /\
  exists msg, days_to_birthday r today = Raise (ValueError msg).
Proof.
  intros r today. repeat (split; [reflexivity |]).
  apply (days_to_birthday_feb29 r today (mkDate 2000 2 29)); reflexivity.
Defined.

(** ** Persistence *)


(** Facts about opening and pickling. *)

Lemma length_rev_string acc s :
  String.length (rev_string acc s) = (String.length acc + String.length s)%nat.
Proof.
  revert acc. induction s as [|c s IH]; intros acc; simpl; [lia|].
  rewrite IH. simpl. lia.
Qed.

Lemma parents_from_shorter seen s p :
  In p (parents_from seen s) ->
  (String.length p < String.length seen + String.length s)%nat.
Proof.
  revert seen. induction s as [|c s IH]; intros seen; simpl; [tauto|].
  intros H. apply in_app_or in H as [H|H].
  - destruct ((code c =? 47) && truthy seen); [|contradiction].
    destruct H as [<-|[]]. rewrite length_rev_string. simpl. lia.
  - apply IH in H. simpl in H. lia.
Qed.

(** A path is none of the directories it goes through. *)
Lemma parents_not_self path : ~ In path (parents path).
Proof.
  intros H. apply parents_from_shorter in H. simpl in H. lia.
Qed.

Lemma walk_insert_other fs path target n dirs :
  ~ In target dirs ->
  walk (<[target := n]> fs) path dirs = walk fs path dirs.
Proof.
  induction dirs as [|dir rest IH]; simpl; [reflexivity|]. intros H.
  rewrite lookup_insert_ne by (intros ->; apply H; now left).
  rewrite IH by (intros Hin; apply H; now right). reflexivity.
Qed.

Lemma unpickle_pickle_record r : unpickle_record (pickle_record r) = r.
Proof. now destruct r. Qed.

(** What [pickle.dump] writes, [pickle.load] reads back. *)
Lemma pickle_roundtrip d : pickle_loads (pickle_dumps d) = Ok d.
Proof.
  unfold pickle_loads, pickle_dumps. f_equal.
  induction d as [|[k r] d IH]; simpl; [reflexivity|].
  now rewrite unpickle_pickle_record, IH.
Qed.

(** The three ways a write ends. *)
Lemma write_pickle_outcome path d fs :
  (exists e, write_pickle path d fs = (Raise e, fs))
  \/ (write_pickle path d fs = (Ok tt, <[path := File (pickle_dumps d)]> fs)
      /\ walk fs path (parents path) = Ok tt /\ ends_with_slash path = false)
  \/ (write_pickle path d fs =
        (Ok tt, <[path := WriteOnlyFile (pickle_dumps d)]> fs)
      /\ walk fs path (parents path) = Ok tt /\ ends_with_slash path = false).
Proof.
  unfold write_pickle.
  destruct (ends_with_slash path).
  - destruct (walk fs path (removelast (parents path))) as [[]|e]; eauto.
  - destruct (walk fs path (parents path)) as [[]|e]; [|eauto].
    destruct (fs !! path) as [[c| |c|c|]|]; eauto 6.
Qed.

Lemma read_written_file path d fs :
  walk fs path (parents path) = Ok tt ->
  ends_with_slash path = false ->
  read_pickle path (<[path := File (pickle_dumps d)]> fs) = Ok d.
Proof.
  intros Hw Hs. unfold read_pickle, entry.
  rewrite walk_insert_other by apply parents_not_self.
  rewrite Hw, Hs, lookup_insert_eq. apply pickle_roundtrip.
Qed.

Lemma read_written_write_only path c fs :
  walk fs path (parents path) = Ok tt ->
  ends_with_slash path = false ->
  read_pickle path (<[path := WriteOnlyFile c]> fs) = Raise (PermissionError path).
Proof.
  intros Hw Hs. unfold read_pickle, entry.
  rewrite walk_insert_other by apply parents_not_self.
  now rewrite Hw, Hs, lookup_insert_eq.
Qed.

(** [load_from_disk] only ever adds to what has been printed. *)
Lemma load_from_disk_printed st :
  exists out, printed (snd (load_from_disk st)) = (printed st ++ out)%list.
Proof.
  unfold load_from_disk.
  destruct (configured_path (book st)) as [path|];
    [|exists []; now rewrite app_nil_r].
  destruct (read_pickle path (disk st)) as [d|e]; simpl.
  - exists []. now rewrite app_nil_r.
  - destruct (is_FileNotFoundError e); simpl; eauto.
Qed.

Lemma printed_more (out : list string) msg more : ((out ++ [msg]) ++ more)%list <> out.
Proof.
  intros H. apply (f_equal (@length string)) in H.
  rewrite !length_app in H. simpl in H. lia.
Qed.



(** ** Input validation *)

(** What the decorator does to a function it wraps: a bad name or a bad
    phone yields a message, the wrapped function does not run and the
    state is untouched. *)
Lemma validation_contact_rejects func nm phone st :
  match_name nm && match_phone phone = false ->
  exists msg, validation_contact func nm phone st = (Ok msg, st).
Proof.
  unfold validation_contact, ret. intros H.
  destruct (match_name nm); simpl in *; [|eauto].
  rewrite H. simpl. eauto.
Qed.

Lemma validation_contact_accepts func nm phone st :
  match_name nm = true -> match_phone phone = true ->
  validation_contact func nm phone st = func nm phone st.
Proof. unfold validation_contact. now intros -> ->. Qed.

(** C1 on the code: [add_contact] is not wrapped by [validation_contact].
    Typing "add bob 1a2" and then "phone bob" registers bob with the phone
    "1a2", writes the book to disk and prints the phone, although "1a2"
    is not accepted by [^\d+$]. *)
Theorem add_invalid_phone_is_registered :
  let bob := mkRecord "bob" ["1a2"] None in
  let st := snd (main ["add bob 1a2"; "phone bob"] (initial_state ∅)) in
  match_phone "1a2" = false
  /\ printed st = ["No previous data found. Starting with an empty address book.";
                   "Contact bob with phone number 1a2 has been added.";
                   "Phone number for contact bob: 1a2"]
  /\ data (book st) = [("bob", bob)]
  /\ disk st !! "address_book.pkl" = Some (File (Pickled [("bob", bob)])).
Proof. repeat split; vm_compute; reflexivity. Qed.

(** The same on the functions themselves, for every state, every
    non-empty name and every phone. *)
Lemma add_contact_unvalidated st nm phone :
  truthy nm = true ->
  dict_get (data (book (snd (add_contact nm phone st)))) nm
    = Some (mkRecord nm [phone] None).
Proof.
  intros Hnm. rewrite add_contact_data by assumption. apply dict_get_set_eq.
Qed.

(** ** The interactive loop *)

Lemma rev_string_truthy acc s :
  truthy (rev_string acc s) = truthy acc || truthy s.
Proof.
  revert acc. induction s as [|c s IH]; intros acc; simpl.
  - now rewrite orb_false_r.
  - rewrite IH. simpl. now rewrite orb_true_r.
Qed.

Lemma flush_truthy cur : Forall (fun t => truthy t = true) (flush cur).
Proof.
  destruct cur as [|c cur]; simpl; constructor; [|constructor].
  rewrite rev_string_truthy. reflexivity.
Qed.

Lemma split_from_truthy cur s :
  Forall (fun t => truthy t = true) (split_from cur s).
Proof.
  revert cur. induction s as [|c s IH]; intros cur; simpl.
  - apply flush_truthy.
  - destruct (is_space c); [|apply IH].
    apply Forall_app. split; [apply flush_truthy | apply IH].
Qed.

(** [str.split()] never yields an empty token. *)
Lemma split_truthy s : Forall (fun t => truthy t = true) (split s).
Proof. apply split_from_truthy. Qed.

Lemma returns_bind {A B} (m : M A) (k : A -> M B) st :
  returns m st -> (forall a st', returns (k a) st') -> returns (bind m k) st.
Proof.
  intros (a & st' & Hm) Hk. unfold returns, bind. rewrite Hm. apply Hk.
Qed.

Lemma returns_ret {A} (a : A) st : returns (ret a) st.
Proof. unfold returns, ret. eauto. Qed.

Lemma returns_print msg st : returns (print msg) st.
Proof. unfold returns, print. eauto. Qed.

Lemma returns_save_to_disk st : returns save_to_disk st.
Proof.
  pose proof (save_to_disk_ok st) as [H _]. unfold returns.
  destruct (save_to_disk st) as [[[]|e] st']; simpl in H; [eauto | discriminate].
Qed.

Lemma returns_add_contact nm phone st :
  truthy nm = true -> returns (add_contact nm phone) st.
Proof. intros H. unfold returns. rewrite add_contact_truthy by assumption. eauto. Qed.

Lemma returns_change_contact nm phone st : returns (change_contact nm phone) st.
Proof.
  unfold change_contact. apply returns_bind; [unfold returns, get_data; eauto|].
  intros d st'. destruct (dict_get d nm); [|apply returns_ret].
  apply returns_bind; [unfold returns, put_data; eauto|]. intros _ st1.
  apply returns_bind; [apply returns_save_to_disk|]. intros _ st2.
  apply returns_ret.
Qed.

Lemma returns_phone_contact nm st : returns (phone_contact nm) st.
Proof.
  unfold phone_contact. apply returns_bind; [unfold returns, get_data; eauto|].
  intros d st'. destruct (dict_get d nm); apply returns_ret.
Qed.

Lemma returns_show_all_contacts st : returns show_all_contacts st.
Proof.
  unfold show_all_contacts. apply returns_bind; [unfold returns, get_data; eauto|].
  intros d st'. destruct d; apply returns_ret.
Qed.

Create HintDb loop.

#[local] Hint Resolve returns_ret returns_print returns_save_to_disk
  returns_change_contact returns_phone_contact returns_show_all_contacts : loop.

Ltac returns_step :=
  apply returns_bind; [auto with loop | intros ? ?].

(** No command line makes an iteration of the loop raise. *)
Lemma handle_command_returns command st :
  Forall (fun t => truthy t = true) command ->
  returns (handle_command command) st.
Proof.
  intros Hok. unfold handle_command.
  destruct command as [|verb args]; [repeat returns_step; auto with loop|].
  apply Forall_cons_iff in Hok as [_ Hargs].
  destruct (String.eqb verb "hello"); [repeat returns_step; auto with loop|].
  destruct (String.eqb verb "add").
  { destruct args as [|nm [|phone [|x l]]];
      try solve [repeat returns_step; auto with loop].
    apply Forall_cons_iff in Hargs as [Hnm _].
    apply returns_bind; [now apply returns_add_contact|]. intros s st1.
    repeat returns_step; auto with loop. }
  destruct (String.eqb verb "change").
  { destruct args as [|nm [|phone [|x l]]];
      repeat returns_step; auto with loop. }
  destruct (String.eqb verb "phone").
  { destruct args as [|nm [|x l]]; repeat returns_step; auto with loop. }
  destruct (String.eqb verb "show").
  { destruct args as [|what [|x l]];
      try solve [repeat returns_step; auto with loop].
    destruct (String.eqb what "all"); repeat returns_step; auto with loop. }
  destruct (is_exit_word verb); repeat returns_step; auto with loop.
Qed.

Lemma handle_line_returns line st : returns (handle_line line) st.
Proof. apply handle_command_returns, split_truthy. Qed.

(** ** The invariant is kept by every operation *)

Lemma preserves_bind {A B} (m : M A) (k : A -> M B) :
  preserves m -> (forall a, preserves (k a)) -> preserves (bind m k).
Proof.
  intros Hm Hk st Hst. unfold bind. specialize (Hm st Hst).
  destruct (m st) as [[a|e] st']; simpl in *; [now apply Hk | assumption].
Qed.

Lemma preserves_ret {A} (a : A) : preserves (ret a).
Proof. intros st H. exact H. Qed.

Lemma preserves_print msg : preserves (print msg).
Proof. intros st H. exact H. Qed.

Lemma inv_set_data d st : book_ok d = true -> inv st -> inv (set_data d st).
Proof. intros Hd [_ Hfs]. split; assumption. Qed.

(** A new regular file does not open the way to any other path. *)
Lemma walk_insert_regular fs path target n dirs :
  n <> Directory ->
  walk (<[target := n]> fs) path dirs = Ok tt ->
  walk fs path dirs = Ok tt.
Proof.
  intros Hn. induction dirs as [|dir rest IH]; simpl; [reflexivity|].
  destruct (decide (target = dir)) as [->|Hne].
  - rewrite lookup_insert_eq. destruct n; try discriminate. congruence.
  - rewrite lookup_insert_ne by assumption.
    destruct (fs !! dir) as [[c| |c|c|]|]; try discriminate. exact IH.
Qed.

(** What can be read after a write is what was written, or what could be
    read before. *)
Lemma read_pickle_after_write path d fs r fs' q dq :
  write_pickle path d fs = (r, fs') ->
  read_pickle q fs' = Ok dq ->
  dq = d \/ read_pickle q fs = Ok dq.
Proof.
  intros Hw Hr.
  assert (Hcase : forall n, n = File (pickle_dumps d) \/ n = WriteOnlyFile (pickle_dumps d) ->
            fs' = <[path := n]> fs -> dq = d \/ read_pickle q fs = Ok dq).
  { intros n Hn ->. unfold read_pickle, entry in Hr |- *.
    destruct (walk (<[path := n]> fs) q (parents q)) as [[]|e] eqn:Hwalk;
      [|discriminate].
    rewrite (walk_insert_regular _ _ _ n _ ltac:(destruct Hn; subst; discriminate) Hwalk).
    destruct (ends_with_slash q); [discriminate|].
    destruct (decide (path = q)) as [->|Hne].
    - rewrite lookup_insert_eq in Hr. left.
      destruct Hn as [-> | ->]; [|discriminate].
      rewrite pickle_roundtrip in Hr. congruence.
    - rewrite lookup_insert_ne in Hr by assumption. now right. }
  destruct (write_pickle_outcome path d fs)
    as [[e He] | [(He & _) | (He & _)]]; rewrite He in Hw;
    injection Hw as <- <-; eauto.
Qed.

Lemma preserves_save_to_disk : preserves save_to_disk.
Proof.
  intros st [Hb Hfs]. unfold save_to_disk.
  destruct (configured_path (book st)) as [path|]; [|now split].
  destruct (write_pickle path (data (book st)) (disk st)) as [r fs'] eqn:Hw.
  assert (Hok : disk_ok fs').
  { intros q dq Hr.
    destruct (read_pickle_after_write _ _ _ _ _ _ _ Hw Hr) as [-> | Hr'];
      [assumption | now apply (Hfs q)]. }
  destruct r as [[]|e]; simpl; split; assumption.
Qed.

Lemma preserves_load_from_disk : preserves load_from_disk.
Proof.
  intros st [Hb Hfs]. unfold load_from_disk.
  destruct (configured_path (book st)) as [path|]; [|now split].
  destruct (read_pickle path (disk st)) as [d|e] eqn:E; simpl.
  - split; [now apply (Hfs path) | assumption].
  - destruct (is_FileNotFoundError e); simpl; split;
      try assumption; reflexivity.
Qed.

Lemma preserves_add_contact nm phone : preserves (add_contact nm phone).
Proof.
  intros st Hst. destruct (truthy nm) eqn:Hnm.
  - rewrite add_contact_truthy by assumption. simpl.
    apply preserves_save_to_disk, inv_set_data; [|assumption].
    destruct Hst as [Hb _]. now apply book_ok_set.
  - now rewrite add_contact_falsy.
Qed.

Lemma change_contact_present st nm phone r :
  dict_get (data (book st)) nm = Some r ->
  change_contact nm phone st =
    (Ok ("Phone number for contact " ++ nm ++ " has been updated to " ++ phone ++ "."),
     snd (save_to_disk
            (set_data (dict_set (data (book st)) nm
                                (mkRecord (name r) [phone] (birthday r))) st))).
Proof.
  intros H. unfold change_contact, bind, get_data, put_data, ret. rewrite H.
  unfold add_phone, set_phones. simpl.
  match goal with |- context [save_to_disk ?s] =>
    pose proof (save_to_disk_ok s) as [Hr _];
    destruct (save_to_disk s) as [[[]|e] st']; simpl in *
  end; [reflexivity | discriminate].
Qed.

Lemma preserves_change_contact nm phone : preserves (change_contact nm phone).
Proof.
  intros st Hst. destruct (dict_get (data (book st)) nm) as [r|] eqn:E.
  - rewrite (change_contact_present _ _ _ _ E). simpl.
    apply preserves_save_to_disk, inv_set_data; [|assumption].
    destruct Hst as [Hb _]. destruct (book_ok_get _ _ _ Hb E) as [Hn Ht].
    now apply book_ok_set.
  - now rewrite change_contact_missing.
Qed.

Lemma preserves_remove_record r : preserves (remove_record r).
Proof.
  intros st Hst. destruct (dict_get (data (book st)) (name r)) as [r0|] eqn:E.
  - rewrite (remove_record_present _ _ _ E).
    apply preserves_save_to_disk, inv_set_data; [|assumption].
    destruct Hst as [Hb _]. now apply book_ok_remove.
  - now rewrite remove_record_absent.
Qed.

Lemma preserves_edit_record_name old_name new_name :
  preserves (edit_record_name old_name new_name).
Proof.
  intros st Hst. pose proof Hst as [Hb _].
  destruct (dict_get (data (book st)) old_name) as [r|] eqn:E.
  - destruct (truthy new_name) eqn:Hnew.
    + rewrite (edit_record_name_truthy _ _ _ _ E Hnew).
      apply preserves_save_to_disk, inv_set_data; [|assumption].
      apply book_ok_set; [now apply book_ok_remove | reflexivity | assumption].
    + rewrite (edit_record_name_falsy _ _ _ _ E Hnew). simpl.
      apply inv_set_data; [now apply book_ok_remove | assumption].
  - now rewrite edit_record_name_absent.
Qed.

Lemma preserves_phone_contact nm : preserves (phone_contact nm).
Proof.
  intros st Hst. unfold phone_contact, bind, get_data, ret.
  now destruct (dict_get (data (book st)) nm).
Qed.

Lemma preserves_show_all_contacts : preserves show_all_contacts.
Proof.
  intros st Hst. unfold show_all_contacts, bind, get_data, ret.
  now destruct (data (book st)).
Qed.

Create HintDb keeps.

#[local] Hint Resolve preserves_ret preserves_print preserves_save_to_disk
  preserves_add_contact preserves_change_contact preserves_phone_contact
  preserves_show_all_contacts : keeps.

Ltac keeps_step := apply preserves_bind; [auto with keeps | intros ?].

Lemma preserves_handle_command command : preserves (handle_command command).
Proof.
  unfold handle_command.
  destruct command as [|verb args]; [repeat keeps_step; auto with keeps|].
  destruct (String.eqb verb "hello"); [repeat keeps_step; auto with keeps|].
  destruct (String.eqb verb "add").
  { destruct args as [|nm [|phone [|x l]]]; repeat keeps_step; auto with keeps. }
  destruct (String.eqb verb "change").
  { destruct args as [|nm [|phone [|x l]]]; repeat keeps_step; auto with keeps. }
  destruct (String.eqb verb "phone").
  { destruct args as [|nm [|x l]]; repeat keeps_step; auto with keeps. }
  destruct (String.eqb verb "show").
  { destruct args as [|what [|x l]]; try solve [repeat keeps_step; auto with keeps].
    destruct (String.eqb what "all"); repeat keeps_step; auto with keeps. }
  destruct (is_exit_word verb); repeat keeps_step; auto with keeps.
Qed.

Lemma preserves_run_lines lines : preserves (run_lines lines).
Proof.
  induction lines as [|line rest IH]; simpl; [intros st H; exact H|].
  apply preserves_bind; [apply preserves_handle_command|].
  intros []; [assumption | apply preserves_ret].
Qed.

(** Started on a disk whose pickles are sound, [main] only ever reaches
    states with a sound book: every key is the non-empty name of its
    record. *)
Lemma main_keeps_invariant fs lines :
  disk_ok fs -> inv (snd (main lines (initial_state fs))).
Proof.
  intros Hfs. apply preserves_bind.
  - apply preserves_load_from_disk.
  - intros _. apply preserves_run_lines.
  - split; [reflexivity | assumption].
Qed.

(** The scenario of the specification, run through [main]. *)
Example alice_scenario :
  printed (snd (main ["add alice 12345"; "phone alice"; "show all"; "exit"]
                     (initial_state ∅)))
  = ["No previous data found. Starting with an empty address book.";
     "Contact alice with phone number 12345 has been added.";
     "Phone number for contact alice: 12345";
     "Contacts:" ++ newline ++ "alice: 12345";
     "Goodbye!"].
Proof. vm_compute. reflexivity. Qed.

(** An [add] line reaches [add_contact] with a non-empty name, so at the
    prompt the overwrite of C3 holds for every name that can be typed. *)
Lemma handle_add_line line nm phone st :
  split (lower line) = ["add"; nm; phone] ->
  truthy nm = true
  /\ fst (handle_line line st) = Ok true
  /\ data (book (snd (handle_line line st))) =
       dict_set (data (book st)) nm (mkRecord nm [phone] None).
Proof.
  intros Hs.
  assert (Hnm : truthy nm = true).
  { pose proof (split_truthy (lower line)) as Hall. rewrite Hs in Hall.
    apply Forall_cons_iff in Hall as [_ Hall].
    now apply Forall_cons_iff in Hall as [Hnm _]. }
  split; [assumption|].
  assert (Hrun : handle_line line st =
            (s <- add_contact nm phone ;; print s ;;; ret true) st)
    by (unfold handle_line; now rewrite Hs).
  rewrite Hrun. unfold bind. rewrite add_contact_truthy by assumption.
  unfold print, ret. simpl.
  match goal with |- context [save_to_disk ?s] =>
    pose proof (save_to_disk_ok s) as [_ Hb]; rewrite Hb
  end.
  split; reflexivity.
Qed.

Lemma add_twice_at_the_prompt line1 line2 nm phone1 phone2 st :
  split (lower line1) = ["add"; nm; phone1] ->
  split (lower line2) = ["add"; nm; phone2] ->
  let st2 := snd (handle_line line2 (snd (handle_line line1 st))) in
  dict_get (data (book st2)) nm = Some (mkRecord nm [phone2] None).
Proof.
  intros H1 H2 st2. subst st2.
  destruct (handle_add_line line2 nm phone2 (snd (handle_line line1 st)) H2)
    as (_ & _ & ->).
  apply dict_get_set_eq.
Qed.

(** * Further properties of the code *)

(** ** Phone lists of a record *)

Lemma list_contains_In l x : list_contains l x = true <-> In x l.
Proof.
  unfold list_contains. rewrite existsb_exists. split.
  - intros (y & Hy & E). apply String.eqb_eq in E. now subst.
  - intros H. exists x. split; [assumption | apply String.eqb_refl].
Qed.

(** The first occurrence of an element of a list. *)
Lemma in_split_first (l : list string) x :
  In x l -> exists l1 l2, l = (l1 ++ x :: l2)%list /\ ~ In x l1.
Proof.
  induction l as [|y l IH]; simpl; [tauto|]. intros H.
  destruct (String.eqb x y) eqn:E.
  - apply String.eqb_eq in E. subst. exists [], l. split; [reflexivity | tauto].
  - apply String.eqb_neq in E. destruct H as [H|H]; [congruence|].
    destruct (IH H) as (l1 & l2 & -> & Hn). exists (y :: l1), l2.
    split; [reflexivity|]. simpl. intros [Hy|Hy]; [congruence | tauto].
Qed.

Lemma list_remove_first l1 l2 x :
  ~ In x l1 -> list_remove (l1 ++ x :: l2)%list x = Ok (l1 ++ l2)%list.
Proof.
  induction l1 as [|y l1 IH]; simpl; intros H.
  - now rewrite String.eqb_refl.
  - destruct (String.eqb x y) eqn:E.
    + apply String.eqb_eq in E. subst. tauto.
    + rewrite IH; tauto.
Qed.

Lemma list_index_first l1 l2 x :
  ~ In x l1 -> list_index (l1 ++ x :: l2)%list x = Ok (length l1).
Proof.
  induction l1 as [|y l1 IH]; simpl; intros H.
  - now rewrite String.eqb_refl.
  - destruct (String.eqb x y) eqn:E.
    + apply String.eqb_eq in E. subst. tauto.
    + rewrite IH; tauto.
Qed.

Lemma insert_middle (l1 l2 : list string) x y :
  <[length l1 := y]> (l1 ++ x :: l2)%list = (l1 ++ y :: l2)%list.
Proof. induction l1 as [|z l1 IH]; simpl; [reflexivity | now rewrite IH]. Qed.

(** X1.  [remove_phone] never raises.  A phone that is not in the list
    leaves the record as it is; otherwise exactly the first occurrence is
    taken out, later duplicates and the order of the rest stay, and name
    and birthday are untouched. *)
Theorem remove_phone_spec r p :
  if list_contains (phones r) p
  then exists l1 l2,
         phones r = (l1 ++ p :: l2)%list /\ ~ In p l1
         /\ remove_phone r p = Ok (mkRecord (name r) (l1 ++ l2) (birthday r))
  else remove_phone r p = Ok r.
Proof.
  unfold remove_phone. destruct (list_contains (phones r) p) eqn:E; [|reflexivity].
  apply list_contains_In, in_split_first in E as (l1 & l2 & Hl & Hn).
  exists l1, l2. repeat split; try assumption.
  now rewrite Hl, list_remove_first.
Qed.

(** X2.  [edit_phone] never raises.  When the old phone is not in the list
    nothing changes; otherwise exactly its first occurrence is replaced in
    place, so the list keeps its length and order. *)
Theorem edit_phone_spec r old_phone new_phone :
  if list_contains (phones r) old_phone
  then exists l1 l2,
         phones r = (l1 ++ old_phone :: l2)%list /\ ~ In old_phone l1
         /\ edit_phone r old_phone new_phone =
              Ok (mkRecord (name r) (l1 ++ new_phone :: l2) (birthday r))
  else edit_phone r old_phone new_phone = Ok r.
Proof.
  unfold edit_phone.
  destruct (list_contains (phones r) old_phone) eqn:E; [|reflexivity].
  apply list_contains_In, in_split_first in E as (l1 & l2 & Hl & Hn).
  exists l1, l2. repeat split; try assumption.
  rewrite Hl, list_index_first by assumption. unfold set_phones.
  now rewrite insert_middle.
Qed.

(** X3.  [add_phone] then [remove_phone] of the same phone: on a record
    that did not hold the phone the two cancel; on a record that already
    held it, the earlier occurrence is the one that goes and the appended
    one stays at the end. *)
Theorem add_then_remove_phone r p :
  remove_phone (add_phone r p) p =
    if list_contains (phones r) p
    then match remove_phone r p with
         | Ok r' => Ok (add_phone r' p)
         | Raise e => Raise e
         end
    else Ok r.
Proof.
  destruct r as [n l b]. unfold remove_phone, add_phone, set_phones. simpl.
  assert (Hin : list_contains (l ++ [p]) p = true).
  { apply list_contains_In, in_or_app. right. now left. }
  rewrite Hin. destruct (list_contains l p) eqn:E.
  - apply list_contains_In, in_split_first in E as (l1 & l2 & -> & Hn).
    rewrite <- app_assoc. simpl. rewrite !list_remove_first by assumption.
    simpl. now rewrite <- app_assoc.
  - assert (Hn : ~ In p l).
    { intros H. apply list_contains_In in H. congruence. }
    replace (l ++ [p])%list with (l ++ p :: [])%list by reflexivity.
    now rewrite list_remove_first, app_nil_r.
Qed.

(** ** What the day count of [days_to_birthday] means *)

Lemma date_ltb_total a b : date_ltb a b = false -> date_ltb b a = false -> a = b.
Proof.
  destruct a as [ya ma da], b as [yb mb db]. unfold date_ltb. simpl.
  intros H1 H2. f_equal; lia.
Qed.

Lemma toordinal_le_not_ltb a b :
  valid_md (year a) (month a) (day a) = true ->
  valid_md (year b) (month b) (day b) = true ->
  toordinal a <= toordinal b -> date_ltb b a = false.
Proof.
  intros Ha Hb Hle. destruct (date_ltb b a) eqn:E; [|reflexivity].
  pose proof (toordinal_lt b a Hb Ha E). lia.
Qed.

Lemma toordinal_inj a b :
  valid_md (year a) (month a) (day a) = true ->
  valid_md (year b) (month b) (day b) = true ->
  toordinal a = toordinal b -> a = b.
Proof.
  intros Ha Hb Heq.
  apply date_ltb_total; apply toordinal_le_not_ltb; try assumption; lia.
Qed.

Lemma days_later_spec n d :
  valid_md (year d) (month d) (day d) = true ->
  valid_md (year (days_later n d)) (month (days_later n d))
           (day (days_later n d)) = true
  /\ toordinal (days_later n d) = toordinal d + Z.of_nat n.
Proof.
  intros H. destruct (days_between_next_days n d H) as [Hv Hd].
  split; [exact Hv|]. unfold days_between in Hd. unfold days_later. lia.
Qed.

(** The two ways [days_to_birthday] returns a count, with the occurrence
    it is counted to. *)
Lemma days_to_birthday_target r today b n :
  birthday r = Some b ->
  days_to_birthday r today = Ok (Some n) ->
  exists y,
    valid_ymd y (month b) (day b) = true
    /\ n = days_between today (mkDate y (month b) (day b))
    /\ ((y = year today
         /\ date_ltb (mkDate y (month b) (day b)) today = false)
        \/ (y = year today + 1
            /\ date_ltb (mkDate (year today) (month b) (day b)) today = true)).
Proof.
  intros Hb. unfold days_to_birthday. rewrite Hb.
  destruct (valid_ymd (year today) (month b) (day b)) eqn:Hthis.
  - rewrite (new_date_valid _ _ _ Hthis).
    destruct (date_ltb (mkDate (year today) (month b) (day b)) today) eqn:Hlt.
    + destruct (valid_ymd (year today + 1) (month b) (day b)) eqn:Hnext.
      * rewrite (new_date_valid _ _ _ Hnext). intros [= <-].
        exists (year today + 1). repeat split; auto.
      * destruct (new_date_invalid _ _ _ Hnext) as [msg ->]. discriminate.
    + intros [= <-]. exists (year today). repeat split; auto.
  - destruct (new_date_invalid _ _ _ Hthis) as [msg ->]. discriminate.
Qed.

(** X4.  When [days_to_birthday] returns [n], then [n] is not negative,
    the date [n] calendar days after today has the birthday's month and
    day, and none of the days from today up to the day before has: the
    count is the distance to the next occurrence, today included. *)
Theorem days_to_birthday_reaches r today b n :
  valid_date today = true ->
  birthday r = Some b ->
  days_to_birthday r today = Ok (Some n) ->
  0 <= n
  /\ same_month_day b (days_later (Z.to_nat n) today) = true
  /\ (forall k, (k < Z.to_nat n)%nat ->
        same_month_day b (days_later k today) = false).
Proof.
  intros Ht Hb Hrun.
  destruct (days_to_birthday_target _ _ _ _ Hb Hrun) as (y & Hv & -> & Hcase).
  unfold valid_date in Ht. apply valid_ymd_md in Ht, Hv.
  set (t := mkDate y (month b) (day b)) in *.
  assert (Hge : toordinal today <= toordinal t).
  { destruct Hcase as [[-> Hnlt] | [-> Hlt]].
    - destruct (date_ltb today t) eqn:E.
      + pose proof (toordinal_lt today t Ht Hv E). lia.
      + rewrite (date_ltb_total _ _ Hnlt E). lia.
    - pose proof (toordinal_bounds _ _ _ Hv) as [Hlo _].
      destruct today as [yt mt dt]. simpl in *.
      pose proof (toordinal_bounds _ _ _ Ht) as [_ Hhi]. subst t. lia. }
  unfold days_between. split; [lia|].
  split.
  - destruct (days_later_spec (Z.to_nat (toordinal t - toordinal today)) today Ht)
      as [Hvx Hox].
    assert (Hx : days_later (Z.to_nat (toordinal t - toordinal today)) today = t).
    { apply toordinal_inj; [assumption | exact Hv | lia]. }
    rewrite Hx. unfold same_month_day, t. simpl. lia.
  - intros k Hk. destruct (days_later_spec k today Ht) as [Hvx Hox].
    set (x := days_later k today) in *.
    assert (Hxt : date_ltb x today = false)
      by (apply toordinal_le_not_ltb; [assumption | assumption | lia]).
    assert (Hxlt : date_ltb x t = true).
    { destruct (date_ltb x t) eqn:E; [reflexivity|].
      assert (Htx : date_ltb t x = false)
        by (apply toordinal_le_not_ltb; [assumption | exact Hv | lia]).
      pose proof (date_ltb_total _ _ E Htx) as Heq.
      rewrite Heq in Hox. lia. }
    destruct x as [yx mx dx], today as [yt mt dt].
    unfold same_month_day, date_ltb, t in *. simpl in *.
    destruct Hcase as [[-> Hnlt] | [-> Hlt]]; lia.
Qed.

Lemma days_to_birthday_reaches_witness :
  let r := mkRecord "alice" [] (Some (mkDate 2000 2 28)) in
  let today := mkDate 2024 3 1 in
  valid_date today = true /\ birthday r = Some (mkDate 2000 2 28)
  /\ days_to_birthday r today = Ok (Some 364)
  /\ same_month_day (mkDate 2000 2 28) (days_later 364 today) = true.
Proof.
  intros r today. repeat (split; [reflexivity |]).
  apply (days_to_birthday_reaches r today (mkDate 2000 2 28) 364); reflexivity.
Defined.

(** X5.  For every birthday other than February 29 and every current date
    before the year 9999, [days_to_birthday] returns a count, and the
    count lies between 0 and 365. *)
Theorem days_to_birthday_returns r today b :
  valid_date today = true ->
  valid_date b = true ->
  birthday r = Some b ->
  (month b =? 2) && (day b =? 29) = false ->
  year today < MAXYEAR ->
  exists n, days_to_birthday r today = Ok (Some n) /\ 0 <= n <= 365.
Proof.
  intros Ht Hvb Hb Hfeb Hy. unfold valid_date in *.
  pose proof (valid_ymd_year _ _ _ Ht) as Hyr. unfold MINYEAR, MAXYEAR in *.
  assert (Hany : forall y, valid_md y (month b) (day b) = true).
  { intros y. apply valid_ymd_md in Hvb. month_cases Hvb;
      unfold valid_md, days_in_month in *; rewrite ?Hm in *; simpl in *;
      destruct (is_leap y); destruct (is_leap (year b)); simpl in *; lia. }
  assert (Hthis : valid_ymd (year today) (month b) (day b) = true)
    by (unfold valid_ymd, MINYEAR, MAXYEAR; rewrite Hany; lia).
  assert (Hnext : valid_ymd (year today + 1) (month b) (day b) = true)
    by (unfold valid_ymd, MINYEAR, MAXYEAR; rewrite Hany; lia).
  unfold days_to_birthday. rewrite Hb.
  rewrite (new_date_valid _ _ _ Hthis), (new_date_valid _ _ _ Hnext).
  apply valid_ymd_md in Ht.
  destruct today as [y mt dt]. simpl in *.
  destruct (date_ltb (mkDate y (month b) (day b)) (mkDate y mt dt)) eqn:Hlt;
    eexists; (split; [reflexivity|]); unfold days_between.
  - pose proof (toordinal_next_year _ _ _ (Hany y) (Hany (y + 1))).
    pose proof (toordinal_lt (mkDate y (month b) (day b)) (mkDate y mt dt)
                  (Hany y) Ht Hlt).
    pose proof (toordinal_bounds _ _ _ (Hany (y + 1))) as [Hlo _].
    pose proof (toordinal_bounds _ _ _ Ht) as [_ Hhi]. lia.
  - pose proof (toordinal_bounds _ _ _ (Hany y)) as [_ Hhi].
    pose proof (toordinal_bounds _ _ _ Ht) as [Hlo _].
    rewrite days_before_year_succ in Hhi.
    destruct (date_ltb (mkDate y mt dt) (mkDate y (month b) (day b))) eqn:Hgt.
    + pose proof (toordinal_lt (mkDate y mt dt) (mkDate y (month b) (day b))
                    Ht (Hany y) Hgt).
      destruct (is_leap y); lia.
    + rewrite (date_ltb_total _ _ Hlt Hgt). lia.
Qed.

Lemma days_to_birthday_returns_witness :
  let r := mkRecord "alice" [] (Some (mkDate 2000 12 31)) in
  let today := mkDate 2024 1 1 in
  valid_date today = true /\ valid_date (mkDate 2000 12 31) = true
  /\ exists n, days_to_birthday r today = Ok (Some n) /\ 0 <= n <= 365.
Proof.
  intros r today. repeat (split; [reflexivity |]).
  apply (days_to_birthday_returns r today (mkDate 2000 12 31));
    try reflexivity.
Defined.

(** ** The mapping under the mutating operations *)

Lemma dict_set_absent {V} (d : dict V) k v :
  dict_get d k = None -> dict_set d k v = (d ++ [(k, v)])%list.
Proof.
  induction d as [|[k' v'] d IH]; simpl; [reflexivity|].
  destruct (String.eqb k k'); [discriminate|]. intros H. now rewrite IH.
Qed.

Lemma dict_keys_set {V} (d : dict V) k v :
  dict_keys (dict_set d k v) =
    if dict_contains d k then dict_keys d else (dict_keys d ++ [k])%list.
Proof.
  destruct (dict_contains d k) eqn:E.
  - now apply dict_keys_set_present.
  - unfold dict_contains in E. destruct (dict_get d k) eqn:G; [discriminate|].
    rewrite dict_set_absent by assumption. unfold dict_keys.
    now rewrite map_app.
Qed.

Lemma dict_keys_remove {V} (d : dict V) k :
  dict_keys (dict_remove d k) =
    List.filter (fun k' => negb (String.eqb k k')) (dict_keys d).
Proof.
  unfold dict_keys. induction d as [|[k' v'] d IH]; simpl; [reflexivity|].
  destruct (String.eqb k k'); simpl; now rewrite IH.
Qed.

Lemma dict_contains_remove_ne {V} (d : dict V) k k' :
  k <> k' -> dict_contains (dict_remove d k) k' = dict_contains d k'.
Proof. intros H. unfold dict_contains. now rewrite dict_get_remove_ne. Qed.

Lemma save_to_disk_data st :
  data (book (snd (save_to_disk st))) = data (book st).
Proof. destruct (save_to_disk_ok st) as [_ ->]. reflexivity. Qed.



(** X7.  [add] with a non-empty name stores a fresh record: whatever the
    name held before (phones and birthday alike) is gone.  Every other
    contact is untouched; a name that was a key keeps its place in the
    order, a new name goes to the end. *)
Theorem add_contact_fresh_record st nm phone :
  truthy nm = true ->
  let st' := snd (add_contact nm phone st) in
  dict_get (data (book st')) nm = Some (mkRecord nm [phone] None)
  /\ (forall k, k <> nm -> dict_get (data (book st')) k = dict_get (data (book st)) k)
  /\ dict_keys (data (book st')) =
       (if dict_contains (data (book st)) nm then dict_keys (data (book st))
        else dict_keys (data (book st)) ++ [nm])%list.
Proof.
  intros Hnm st'. subst st'. rewrite add_contact_data by assumption.
  repeat split.
  - apply dict_get_set_eq.
  - intros k Hk. apply dict_get_set_ne. congruence.
  - apply dict_keys_set.
Qed.

Lemma add_contact_fresh_record_witness :
  let alice := mkRecord "alice" ["111"; "222"] (Some (mkDate 2000 2 29)) in
  let st := mkState (mkBook [("alice", alice)] None) ∅ [] in
  truthy "alice" = true /\
  dict_get (data (book (snd (add_contact "alice" "333" st)))) "alice"
    = Some (mkRecord "alice" ["333"] None).
Proof.
  intros alice st. split; [reflexivity |].
  apply (add_contact_fresh_record st "alice" "333"). reflexivity.
Defined.



(** X9.  [remove_record] deletes by name: whatever record is stored under
    the name of the record passed goes, whether or not it is that record;
    every other contact is untouched and the remaining keys keep their
    order. *)
Theorem remove_record_by_name st r r0 :
  dict_get (data (book st)) (name r) = Some r0 ->
  let st' := snd (remove_record r st) in
  fst (remove_record r st) = Ok tt
  /\ dict_get (data (book st')) (name r) = None
  /\ (forall k, k <> name r ->
        dict_get (data (book st')) k = dict_get (data (book st)) k)
  /\ dict_keys (data (book st')) =
       List.filter (fun k => negb (String.eqb (name r) k)) (dict_keys (data (book st))).
Proof.
  intros H st'. subst st'. rewrite (remove_record_present _ _ _ H).
  destruct (save_to_disk_ok
    (set_data (dict_remove (data (book st)) (name r)) st)) as [Hr Hb].
  rewrite Hb. simpl. repeat split.
  - exact Hr.
  - apply dict_get_remove_eq.
  - intros k Hk. apply dict_get_remove_ne. congruence.
  - apply dict_keys_remove.
Qed.

Lemma remove_record_by_name_witness :
  let stored := mkRecord "alice" ["111"] None in
  let other := mkRecord "alice" ["999"] (Some (mkDate 2000 1 1)) in
  let st := mkState (mkBook [("alice", stored)] None) ∅ [] in
  dict_get (data (book st)) (name other) = Some stored /\
  dict_get (data (book (snd (remove_record other st)))) "alice" = None.
Proof.
  intros stored other st. split; [reflexivity |].
  apply (remove_record_by_name st other stored). reflexivity.
Defined.

(** ** Saving and loading *)

Lemma set_disk_same st : set_disk (disk st) st = st.
Proof. now destruct st. Qed.

(** The two ways [save_to_disk] ends when a path is configured: the write
    fails and is reported, or the file then holds the pickle. *)
Lemma save_to_disk_outcome st path :
  configured_path (book st) = Some path ->
  (exists e, save_to_disk st = print (save_error ++ str_exn e) st)
  \/ (exists n,
        (n = File (pickle_dumps (data (book st)))
         \/ n = WriteOnlyFile (pickle_dumps (data (book st))))
        /\ save_to_disk st = (Ok tt, set_disk (<[path := n]> (disk st)) st)).
Proof.
  intros Hp. unfold save_to_disk. rewrite Hp.
  destruct (write_pickle_outcome path (data (book st)) (disk st))
    as [[e ->] | [(-> & _) | (-> & _)]].
  - left. exists e. now rewrite set_disk_same.
  - right. eauto.
  - right. eauto.
Qed.

Lemma save_to_disk_directory st path :
  configured_path (book st) = Some path ->
  disk st !! path = Some Directory ->
  exists e, save_to_disk st = print (save_error ++ str_exn e) st.
Proof.
  intros Hp Hd. unfold save_to_disk, write_pickle. rewrite Hp, Hd.
  destruct (ends_with_slash path).
  - destruct (walk (disk st) path (removelast (parents path))) as [[]|e];
      rewrite set_disk_same; eauto.
  - destruct (walk (disk st) path (parents path)) as [[]|e];
      rewrite set_disk_same; eauto.
Qed.

Lemma add_record_run st r :
  add_record r st = save_to_disk (set_data (dict_set (data (book st)) (name r) r) st).
Proof. reflexivity. Qed.



(** X11.  [add_record] when the file cannot be written (the path names a
    directory): the failure does not abort the call.  It returns, the
    record is stored in memory all the same, no file changes, and exactly
    one line reporting the error is printed. *)
Theorem add_record_save_failure st r path :
  configured_path (book st) = Some path ->
  disk st !! path = Some Directory ->
  let st' := snd (add_record r st) in
  fst (add_record r st) = Ok tt
  /\ data (book st') = dict_set (data (book st)) (name r) r
  /\ disk st' = disk st
  /\ exists msg,
       printed st' =
         (printed st ++ [("Error occurred while saving to disk: " ++ msg)%string])%list.
Proof.
  intros Hp Hd st'. subst st'. rewrite add_record_run.
  destruct (save_to_disk_directory
              (set_data (dict_set (data (book st)) (name r) r) st) path Hp Hd)
    as [e ->].
  simpl. repeat split. eexists. reflexivity.
Qed.

Lemma add_record_save_failure_witness :
  let alice := mkRecord "alice" ["111"] None in
  let st := mkState (mkBook [] (Some ".")) {[ "." := Directory ]} [] in
  configured_path (book st) = Some "." /\
  disk st !! "." = Some Directory /\
  data (book (snd (add_record alice st))) = [("alice", alice)] /\
  disk (snd (add_record alice st)) = disk st.
Proof.
  intros alice st. split; [reflexivity | split; [reflexivity |]].
  pose proof (add_record_save_failure st alice "." eq_refl eq_refl)
    as (_ & Hd & Hfs & _).
  split; [exact Hd | exact Hfs].
Defined.

(** ** Properties kept along the loop *)

Lemma keeps_bind {A B} I (m : M A) (k : A -> M B) :
  keeps I m -> (forall a, keeps I (k a)) -> keeps I (bind m k).
Proof.
  intros Hm Hk st Hst. unfold bind. specialize (Hm st Hst).
  destruct (m st) as [[a|e] st']; simpl in *; [now apply Hk | assumption].
Qed.

Lemma keeps_ret {A} I (a : A) : keeps I (ret a).
Proof. intros st H. exact H. Qed.

Lemma phone_contact_state nm st : snd (phone_contact nm st) = st.
Proof.
  unfold phone_contact, bind, get_data, ret.
  now destruct (dict_get (data (book st)) nm).
Qed.

Lemma show_all_contacts_state st : snd (show_all_contacts st) = st.
Proof.
  unfold show_all_contacts, bind, get_data, ret. now destruct (data (book st)).
Qed.

Lemma keeps_phone_contact I nm : keeps I (phone_contact nm).
Proof. intros st H. now rewrite phone_contact_state. Qed.

Lemma keeps_show_all_contacts I : keeps I show_all_contacts.
Proof. intros st H. now rewrite show_all_contacts_state. Qed.

Section KeptByTheLoop.
Variable I : state -> Prop.
Variable P : string -> Prop.
Hypothesis I_print : forall msg, keeps I (print msg).
Hypothesis I_save : keeps I save_to_disk.
Hypothesis I_add : forall nm phone, P nm -> keeps I (add_contact nm phone).
Hypothesis I_change : forall nm phone, keeps I (change_contact nm phone).
Hypothesis P_tokens : forall line, Forall P (split (lower line)).

Ltac kept :=
  repeat (apply keeps_bind;
          [solve [auto using keeps_ret, keeps_phone_contact,
                    keeps_show_all_contacts]
          | intros ?]);
  auto using keeps_ret, keeps_phone_contact, keeps_show_all_contacts.

Lemma keeps_handle_command command :
  Forall P command -> keeps I (handle_command command).
Proof.
  intros Hok. unfold handle_command.
  destruct command as [|verb args]; [kept|].
  apply Forall_cons_iff in Hok as [_ Hargs].
  destruct (String.eqb verb "hello"); [kept|].
  destruct (String.eqb verb "add").
  { destruct args as [|nm [|phone [|x l]]]; try solve [kept].
    apply Forall_cons_iff in Hargs as [Hnm _].
    apply keeps_bind; [now apply I_add | intros ?; kept]. }
  destruct (String.eqb verb "change").
  { destruct args as [|nm [|phone [|x l]]]; kept. }
  destruct (String.eqb verb "phone").
  { destruct args as [|nm [|x l]]; kept. }
  destruct (String.eqb verb "show").
  { destruct args as [|what [|x l]]; try solve [kept].
    destruct (String.eqb what "all"); kept. }
  destruct (is_exit_word verb); kept.
Qed.

Lemma keeps_run_lines lines : keeps I (run_lines lines).
Proof.
  induction lines as [|line rest IH]; simpl; [intros st H; exact H|].
  apply keeps_bind; [apply keeps_handle_command, P_tokens|].
  intros []; [assumption | apply keeps_ret].
Qed.
End KeptByTheLoop.

(** ** A session and the next *)

Lemma load_from_disk_keeps_files st :
  disk (snd (load_from_disk st)) = disk st
  /\ file_path (book (snd (load_from_disk st))) = file_path (book st).
Proof.
  unfold load_from_disk.
  destruct (configured_path (book st)) as [path|]; [|now split].
  destruct (read_pickle path (disk st)) as [d|e]; [now split|].
  destruct (is_FileNotFoundError e); now split.
Qed.

Lemma load_from_disk_returns st : fst (load_from_disk st) = Ok tt.
Proof.
  unfold load_from_disk.
  destruct (configured_path (book st)) as [path|]; [|reflexivity].
  destruct (read_pickle path (disk st)) as [d|e]; [reflexivity|].
  now destruct (is_FileNotFoundError e).
Qed.

Lemma walk_raises_path fs path dirs p :
  walk fs path dirs = Raise (FileNotFoundError p) -> p = path.
Proof.
  induction dirs as [|dir rest IH]; simpl; [discriminate|].
  destruct (fs !! dir) as [[c| |c|c|]|]; try discriminate; try exact IH.
  now intros [= ->].
Qed.

(** The path in a [FileNotFoundError] is the path that was opened. *)
Lemma read_pickle_raises_path path fs :
  match read_pickle path fs with
  | Raise (FileNotFoundError p) => p = path
  | _ => True
  end.
Proof.
  unfold read_pickle.
  destruct (walk fs path (parents path)) as [[]|e] eqn:Hw.
  - destruct (entry fs path) as [[[d|]| |[d|]|c|]|]; simpl; auto.
  - destruct e; auto. now apply walk_raises_path in Hw.
Qed.


Lemma main_after_load lines st :
  main lines st = run_lines lines (snd (load_from_disk st)).
Proof.
  unfold main, bind. pose proof (load_from_disk_returns st) as H.
  destruct (load_from_disk st) as [[[]|e] st']; simpl in *;
    [reflexivity | discriminate].
Qed.

(** The default path has no directory to go through. *)
Lemma read_pickle_default fs :
  read_pickle default_path fs =
    match fs !! default_path with
    | None => Raise (FileNotFoundError default_path)
    | Some Directory => Raise (IsADirectoryError default_path)
    | Some (WriteOnlyFile _) | Some Denied => Raise (PermissionError default_path)
    | Some (File c) | Some (ReadOnlyFile c) => pickle_loads c
    end.
Proof. reflexivity. Qed.

Lemma restart_read fs :
  restart fs =
    match read_pickle default_path fs with
    | Ok d => set_data d (initial_state fs)
    | Raise e =>
        if is_FileNotFoundError e then
          snd (print "No previous data found. Starting with an empty address book."
                     (initial_state fs))
        else
          snd ((print (load_error ++ str_exn e) ;;; put_data []) (initial_state fs))
    end.
Proof.
  unfold restart, load_from_disk. cbn [initial_state book disk configured_path file_path truthy].
  fold default_path.
  destruct (read_pickle default_path fs) as [d|e]; [reflexivity|].
  now destruct (is_FileNotFoundError e).
Qed.

Lemma prefix_app p s : String.prefix p (p ++ s) = true.
Proof.
  induction p as [|c p IH]; [now destruct s|].
  change (String c p ++ s) with (String c (p ++ s)). simpl.
  destruct (ascii_dec c c); [exact IH | congruence].
Qed.

Lemma reported_app report out more :
  reported report (out ++ more) = reported report out || reported report more.
Proof. unfold reported. apply existsb_app. Qed.

Lemma in_step_print msg : keeps in_step (print msg).
Proof.
  intros st [Hp H]. split; [exact Hp|]. cbn [print snd printed disk book].
  rewrite reported_app. intros Hs. apply orb_false_iff in Hs as [Hs _].
  now apply H.
Qed.

(** A save puts the disk in step with the book, or says that it failed. *)
Lemma save_in_step st :
  file_path (book st) = Some default_path -> in_step (snd (save_to_disk st)).
Proof.
  intros Hp.
  assert (Hc : configured_path (book st) = Some default_path)
    by (unfold configured_path; now rewrite Hp).
  destruct (save_to_disk_outcome st default_path Hc) as [[e ->] | (n & Hn & ->)].
  - split; [exact Hp|]. cbn [print snd printed]. rewrite reported_app.
    unfold reported at 2. cbn [existsb]. rewrite prefix_app.
    rewrite orb_true_r. discriminate.
  - split; [exact Hp|]. cbn [snd set_disk printed disk book]. intros _.
    rewrite restart_read, read_pickle_default, lookup_insert_eq.
    destruct Hn as [-> | ->].
    + rewrite pickle_roundtrip. reflexivity.
    + cbn [is_FileNotFoundError]. unfold bind, print, put_data, set_data.
      cbn [snd printed initial_state]. unfold reported. cbn [existsb app].
      rewrite prefix_app. discriminate.
Qed.

Lemma in_step_save : keeps in_step save_to_disk.
Proof. intros st [Hp _]. now apply save_in_step. Qed.

Lemma in_step_add_contact nm phone : keeps in_step (add_contact nm phone).
Proof.
  intros st [Hp H]. destruct (truthy nm) eqn:Hnm.
  - rewrite add_contact_truthy by assumption. cbn [snd].
    now apply save_in_step.
  - rewrite add_contact_falsy by assumption. now split.
Qed.

Lemma in_step_change_contact nm phone : keeps in_step (change_contact nm phone).
Proof.
  intros st [Hp H]. destruct (dict_get (data (book st)) nm) as [r|] eqn:E.
  - rewrite (change_contact_present _ _ _ _ E). cbn [snd].
    now apply save_in_step.
  - rewrite change_contact_missing by assumption. now split.
Qed.

(** X14.  Persistence from one session to the next.  Whatever the disk
    holds at the start and whatever is typed, if the session reports no
    failed save, and the next start reports no failed load, then the next
    start begins with exactly the mapping the session ended with, whether
    the session ended with an exit word or with the end of the input. *)
Theorem session_restart fs lines :
  let st1 := snd (main lines (initial_state fs)) in
  reported save_error (printed st1) = false ->
  reported load_error (printed (restart (disk st1))) = false ->
  data (book (restart (disk st1))) = data (book st1).
Proof.
  intros st1.
  assert (H1 : in_step st1).
  { subst st1. rewrite main_after_load.
    apply (keeps_run_lines in_step (fun _ => True));
      auto using in_step_print, in_step_save, in_step_add_contact,
        in_step_change_contact.
    - intros line. apply Forall_forall. auto.
    - pose proof (load_from_disk_keeps_files (initial_state fs)) as [Hd Hp].
      split; [now rewrite Hp|]. intros _ _. unfold restart at 1. now rewrite Hd. }
  destruct H1 as [_ H]. exact H.
Qed.

Lemma session_restart_witness :
  let lines := ["add alice 111"; "add bob 222"; "change alice 333"] in
  let st1 := snd (main lines (initial_state ∅)) in
  reported save_error (printed st1) = false /\
  reported load_error (printed (restart (disk st1))) = false /\
  data (book (restart (disk st1))) = data (book st1).
Proof.
  intros lines st1. split; [reflexivity | split; [reflexivity |]].
  apply (session_restart ∅ lines); reflexivity.
Defined.

(** ** The loop itself *)

Lemma bind_yields {A B} (m : M A) (k : A -> M B) st b :
  returns m st -> (forall a st', fst (k a st') = Ok b) ->
  fst (bind m k st) = Ok b.
Proof.
  intros (a & st' & Hm) Hk. unfold bind. rewrite Hm. apply Hk.
Qed.

(** An iteration never raises, and it breaks the loop exactly on an exit
    word. *)
Lemma handle_command_continue command st :
  Forall (fun t => truthy t = true) command ->
  fst (handle_command command st) =
    Ok (negb (match command with w :: _ => is_exit_word w | [] => false end)).
Proof.
  intros Hok. unfold handle_command.
  destruct command as [|verb args]; [reflexivity|].
  apply Forall_cons_iff in Hok as [_ Hargs].
  destruct (String.eqb verb "hello") eqn:E1.
  { apply String.eqb_eq in E1. subst verb. reflexivity. }
  destruct (String.eqb verb "add") eqn:E2.
  { apply String.eqb_eq in E2. subst verb.
    destruct args as [|nm [|phone [|x l]]]; try reflexivity.
    apply Forall_cons_iff in Hargs as [Hnm _].
    apply bind_yields; [now apply returns_add_contact | reflexivity]. }
  destruct (String.eqb verb "change") eqn:E3.
  { apply String.eqb_eq in E3. subst verb.
    destruct args as [|nm [|phone [|x l]]]; try reflexivity.
    apply bind_yields; [apply returns_change_contact | reflexivity]. }
  destruct (String.eqb verb "phone") eqn:E4.
  { apply String.eqb_eq in E4. subst verb.
    destruct args as [|nm [|x l]]; try reflexivity.
    apply bind_yields; [apply returns_phone_contact | reflexivity]. }
  destruct (String.eqb verb "show") eqn:E5.
  { apply String.eqb_eq in E5. subst verb.
    destruct args as [|what [|x l]]; try reflexivity.
    destruct (String.eqb what "all");
      (apply bind_yields;
       [first [apply returns_show_all_contacts | apply returns_phone_contact]
       | reflexivity]). }
  destruct (is_exit_word verb); [|reflexivity].
  apply bind_yields; [apply returns_save_to_disk | reflexivity].
Qed.

Lemma handle_line_continue line st :
  fst (handle_line line st) = Ok (negb (is_exit_line line)).
Proof.
  unfold handle_line, is_exit_line. apply handle_command_continue, split_truthy.
Qed.

Lemma run_lines_outcome lines st :
  fst (run_lines lines st) =
    if existsb is_exit_line lines then Ok tt else Raise EOFError.
Proof.
  revert st. induction lines as [|line rest IH]; intros st; [reflexivity|].
  simpl. unfold bind. pose proof (handle_line_continue line st) as H.
  destruct (handle_line line st) as [[b|e] st']; simpl in H; [|discriminate].
  injection H as ->. destruct (is_exit_line line); simpl; [reflexivity | apply IH].
Qed.


Lemma exit_word_is_no_command w :
  is_exit_word w = true ->
  String.eqb w "hello" = false /\ String.eqb w "add" = false
  /\ String.eqb w "change" = false /\ String.eqb w "phone" = false
  /\ String.eqb w "show" = false.
Proof.
  unfold is_exit_word. rewrite !orb_true_iff, !String.eqb_eq.
  intros [[[[-> | ->] | ->] | ->] | ->]; repeat split; reflexivity.
Qed.

(** X17.  A line whose first word is one of good, bye, close, exit or "."
    ends the loop whatever follows the word on the line: the book is
    saved, "Goodbye!" is printed and the lines after it are never
    read. *)
Theorem exit_word_ends_the_loop line rest w args st :
  split (lower line) = w :: args ->
  is_exit_word w = true ->
  run_lines (line :: rest) st =
    (Ok tt, snd (print "Goodbye!" (snd (save_to_disk st)))).
Proof.
  intros Hs Hw. destruct (exit_word_is_no_command w Hw) as (H1 & H2 & H3 & H4 & H5).
  simpl. unfold handle_line. rewrite Hs. unfold handle_command.
  rewrite H1, H2, H3, H4, H5, Hw. unfold bind.
  destruct (save_to_disk_ok st) as [Hr _].
  destruct (save_to_disk st) as [[[]|e] st']; simpl in *; [reflexivity | discriminate].
Qed.

Lemma exit_word_ends_the_loop_witness :
  split (lower "Good morning to you") = ["good"; "morning"; "to"; "you"] /\
  is_exit_word "good" = true /\
  printed (snd (run_lines ["Good morning to you"; "add alice 111"]
                          (initial_state ∅))) = ["Goodbye!"].
Proof.
  split; [reflexivity | split; [reflexivity |]].
  rewrite (exit_word_ends_the_loop "Good morning to you" ["add alice 111"]
             "good" ["morning"; "to"; "you"] (initial_state ∅) eq_refl eq_refl).
  reflexivity.
Defined.

(** X18.  A line whose first word is neither add nor change nor an exit
    word (an empty line included) is read-only: the iteration returns to
    the prompt, calls [print] exactly once (with one message, which for
    show all is the whole listing and spans a line per contact after its
    heading), and leaves the book and the disk as they were. *)
Theorem other_lines_are_read_only line st :
  let verb := hd EmptyString (split (lower line)) in
  String.eqb verb "add" = false ->
  String.eqb verb "change" = false ->
  is_exit_word verb = false ->
  let st' := snd (handle_line line st) in
  fst (handle_line line st) = Ok true
  /\ book st' = book st
  /\ disk st' = disk st
  /\ exists msg, printed st' = (printed st ++ [msg])%list.
Proof.
  unfold handle_line. destruct (split (lower line)) as [|verb args]; simpl hd.
  - intros _ _ _. simpl. repeat split. eauto.
  - intros Hadd Hchange Hexit. unfold handle_command.
    rewrite Hadd, Hchange, Hexit.
    assert (Hphone : forall nm,
      let r := (s <- phone_contact nm ;; print s ;;; ret true) st in
      fst r = Ok true /\ book (snd r) = book st /\ disk (snd r) = disk st
      /\ exists msg, printed (snd r) = (printed st ++ [msg])%list).
    { intros nm. cbv zeta.
      destruct (returns_phone_contact nm st) as (a & st' & H).
      pose proof (phone_contact_state nm st) as Hst. rewrite H in Hst.
      simpl in Hst. subst st'. unfold bind. rewrite H. simpl.
      repeat split. eauto. }
    assert (Hone : forall msg,
      let r := (print msg ;;; ret true) st in
      fst r = Ok true /\ book (snd r) = book st /\ disk (snd r) = disk st
      /\ exists msg, printed (snd r) = (printed st ++ [msg])%list).
    { intros msg. cbv zeta. simpl. repeat split. eauto. }
    destruct (String.eqb verb "hello"); [apply Hone|].
    destruct (String.eqb verb "phone").
    { destruct args as [|nm [|x l]]; [apply Hone | apply Hphone | apply Hone]. }
    destruct (String.eqb verb "show"); [|apply Hone].
    destruct args as [|what [|x l]]; [apply Hone | | apply Hone].
    destruct (String.eqb what "all"); [|apply Hphone].
    cbv zeta. destruct (returns_show_all_contacts st) as (a & st' & H).
    pose proof (show_all_contacts_state st) as Hst. rewrite H in Hst.
    simpl in Hst. subst st'. unfold bind. rewrite H. simpl.
    repeat split. eauto.
Qed.

Lemma other_lines_are_read_only_witness :
  let st := mkState (mkBook [("alice", mkRecord "alice" ["111"] None)]
                            (Some "address_book.pkl")) ∅ [] in
  String.eqb (hd EmptyString (split (lower "SHOW all"))) "add" = false /\
  book (snd (handle_line "SHOW all" st)) = book st /\
  disk (snd (handle_line "SHOW all" st)) = disk st.
Proof.
  intros st. split; [reflexivity |].
  pose proof (other_lines_are_read_only "SHOW all" st eq_refl eq_refl eq_refl)
    as (_ & Hb & Hd & _).
  split; [exact Hb | exact Hd].
Defined.

(** ** The names the loop stores *)

Lemma lower_char_idem c : lower_char (lower_char c) = lower_char c.
Proof. destruct c as [[] [] [] [] [] [] [] []]; vm_compute; reflexivity. Qed.

Lemma lower_is_lower s :
  string_forall (fun c => Ascii.eqb (lower_char c) c) (lower s) = true.
Proof.
  induction s as [|c s IH]; simpl; [reflexivity|].
  rewrite lower_char_idem, Ascii.eqb_refl. exact IH.
Qed.

Lemma string_forall_rev p acc s :
  string_forall p (rev_string acc s) = string_forall p acc && string_forall p s.
Proof.
  revert acc. induction s as [|c s IH]; intros acc; simpl.
  - now rewrite andb_true_r.
  - rewrite IH. simpl. destruct (p c), (string_forall p acc); reflexivity.
Qed.

Lemma flush_words cur :
  string_forall word_char cur = true ->
  Forall (fun t => is_word t = true) (flush cur).
Proof.
  intros H. destruct cur as [|c cur]; simpl; constructor; [|constructor].
  unfold is_word. rewrite rev_string_truthy, string_forall_rev. simpl in *.
  now rewrite andb_true_r.
Qed.

Lemma split_from_words cur s :
  string_forall word_char cur = true ->
  string_forall (fun c => Ascii.eqb (lower_char c) c) s = true ->
  Forall (fun t => is_word t = true) (split_from cur s).
Proof.
  revert cur. induction s as [|c s IH]; intros cur Hcur Hs; simpl.
  - now apply flush_words.
  - simpl in Hs. apply andb_true_iff in Hs as [Hc Hs].
    destruct (is_space c) eqn:Hsp.
    + apply Forall_app. split; [now apply flush_words | now apply IH].
    + apply IH; [|assumption]. simpl. unfold word_char at 1.
      now rewrite Hsp, Hc, Hcur.
Qed.

(** The tokens of a line are words. *)
Lemma split_lower_words line :
  Forall (fun t => is_word t = true) (split (lower line)).
Proof. apply split_from_words; [reflexivity | apply lower_is_lower]. Qed.

Lemma keys_are_words_set d k r :
  keys_are_words d = true -> is_word k = true ->
  keys_are_words (dict_set d k r) = true.
Proof.
  unfold keys_are_words. intros Hd Hk. rewrite dict_keys_set.
  destruct (dict_contains d k); [assumption|].
  rewrite forallb_app, Hd. simpl. now rewrite Hk.
Qed.

Lemma is_word_truthy k : is_word k = true -> truthy k = true.
Proof. unfold is_word. intros H. now apply andb_true_iff in H as [H _]. Qed.

Lemma words_print msg : keeps words_kept (print msg).
Proof. intros st H. exact H. Qed.

Lemma words_save : keeps words_kept save_to_disk.
Proof. intros st H. unfold words_kept. now rewrite save_to_disk_data. Qed.

Lemma words_add_contact nm phone :
  is_word nm = true -> keeps words_kept (add_contact nm phone).
Proof.
  intros Hw st H. unfold words_kept.
  rewrite add_contact_data by now apply is_word_truthy.
  now apply keys_are_words_set.
Qed.

Lemma words_change_contact nm phone : keeps words_kept (change_contact nm phone).
Proof.
  intros st H. unfold words_kept in *.
  destruct (dict_get (data (book st)) nm) as [r|] eqn:E.
  - rewrite (change_contact_present _ _ _ _ E). simpl.
    rewrite save_to_disk_data. simpl. unfold keys_are_words.
    rewrite dict_keys_set_present; [exact H|].
    unfold dict_contains. now rewrite E.
  - now rewrite change_contact_missing.
Qed.

(** X19.  Every name the loop stores is a word: non-empty, without
    whitespace and in lower case.  Started on no file, or on a file whose
    keys are words, [main] ends with a book whose keys are all words,
    whatever is typed. *)
Theorem main_stores_words fs lines :
  (forall d, read_pickle default_path fs = Ok d -> keys_are_words d = true) ->
  keys_are_words (data (book (snd (main lines (initial_state fs))))) = true.
Proof.
  intros Hfs. rewrite main_after_load.
  apply (keeps_run_lines words_kept (fun t => is_word t = true));
    auto using words_print, words_save, words_add_contact,
      words_change_contact, split_lower_words.
  unfold words_kept. fold (restart fs). rewrite restart_read.
  destruct (read_pickle default_path fs) as [d|e] eqn:E.
  - now apply Hfs.
  - now destruct (is_FileNotFoundError e).
Qed.

Lemma main_stores_words_witness :
  (forall d, read_pickle default_path ∅ = Ok d -> keys_are_words d = true) /\
  keys_are_words
    (data (book (snd (main ["ADD Alice 111"; "add   BOB  222"] (initial_state ∅)))))
    = true.
Proof.
  assert (H : forall d, read_pickle default_path ∅ = Ok d ->
                        keys_are_words d = true)
    by (intros d Hd; discriminate Hd).
  split; [exact H |].
  apply (main_stores_words ∅ ["ADD Alice 111"; "add   BOB  222"] H).
Defined.

(** ** The validation decorator *)

Lemma code_newline c : (code c =? 10) = true -> c = ascii_of_N 10.
Proof.
  unfold code. intros H. apply Z.eqb_eq in H.
  rewrite <- (ascii_N_embedding c). f_equal. lia.
Qed.

Lemma rest_of_plus_eol_accepts cls s :
  rest_of_plus_eol cls s = true ->
  exists w, string_forall cls w = true /\ (s = w \/ s = w ++ newline).
Proof.
  induction s as [|c s IH]; simpl.
  - exists EmptyString. auto.
  - destruct (cls c) eqn:Hc.
    + intros H. destruct (IH H) as (w & Hw & Hs). exists (String c w). simpl.
      rewrite Hc, Hw. split; [reflexivity|].
      destruct Hs as [-> | ->]; auto.
    + intros H. apply andb_true_iff in H as [Hnl Hr].
      apply code_newline in Hnl. subst c. destruct s; [|discriminate].
      exists EmptyString. auto.
Qed.

Lemma rest_of_plus_eol_complete cls w :
  cls (ascii_of_N 10) = false ->
  string_forall cls w = true ->
  rest_of_plus_eol cls w = true /\ rest_of_plus_eol cls (w ++ newline) = true.
Proof.
  intros Hnl. induction w as [|c w IH]; simpl.
  - intros _. split; [reflexivity|]. unfold newline. simpl in *. now rewrite Hnl.
  - intros H. apply andb_true_iff in H as [Hc Hw]. rewrite Hc. now apply IH.
Qed.

(** The one-pass matcher accepts exactly what the pattern describes. *)
Lemma re_match_plus_eol_accepted cls s :
  cls (ascii_of_N 10) = false ->
  re_match_plus_eol cls s = true <-> accepted cls s.
Proof.
  intros Hnl. unfold accepted. split.
  - destruct s as [|c s]; simpl; [discriminate|]. intros H.
    apply andb_true_iff in H as [Hc Hr].
    destruct (rest_of_plus_eol_accepts _ _ Hr) as (w & Hw & Hs).
    exists (String c w). simpl. rewrite Hc, Hw. repeat split.
    destruct Hs as [-> | ->]; auto.
  - intros (w & Ht & Hw & Hs). destruct w as [|c w]; [discriminate|].
    simpl in Hw. apply andb_true_iff in Hw as [Hc Hw].
    destruct (rest_of_plus_eol_complete cls w Hnl Hw) as [H1 H2].
    destruct Hs as [-> | ->]; simpl; now rewrite Hc.
Qed.

(** X20.  What [validation_contact] lets through.  The wrapped function
    runs exactly when the name is a non-empty run of English letters and
    spaces and the phone a non-empty run of digits, each optionally
    followed by one final newline (which [$] tolerates).  In every other
    case the result is a message that does not depend on the wrapped
    function, and the state is untouched. *)
Theorem validation_contact_guard func nm phone st :
  (accepted letter_or_space nm /\ accepted is_digit phone
   /\ validation_contact func nm phone st = func nm phone st)
  \/ (~ (accepted letter_or_space nm /\ accepted is_digit phone)
      /\ exists msg, forall func',
           validation_contact func' nm phone st = (Ok msg, st)).
Proof.
  pose proof (re_match_plus_eol_accepted letter_or_space nm eq_refl) as Hn.
  pose proof (re_match_plus_eol_accepted is_digit phone eq_refl) as Hp.
  fold (match_name nm) in Hn. fold (match_phone phone) in Hp.
  unfold validation_contact, ret.
  destruct (match_name nm) eqn:En; simpl.
  - destruct (match_phone phone) eqn:Ep; simpl.
    + left. repeat split; [now apply Hn | now apply Hp].
    + right. split; [|eauto]. intros [_ H]. apply Hp in H. discriminate.
  - right. split; [|eauto]. intros [H _]. apply Hn in H. discriminate.
Qed.

(** ** The listing *)

Lemma string_app_assoc (a b c : string) : (a ++ b) ++ c = a ++ b ++ c.
Proof.
  induction a as [|x a IH]; [reflexivity|].
  change (String x ((a ++ b) ++ c) = String x (a ++ b ++ c)). now f_equal.
Qed.

Lemma join_snoc sep l x :
  l <> [] -> join sep (l ++ [x]) = join sep l ++ sep ++ x.
Proof.
  induction l as [|y l IH]; [congruence|]. intros _.
  destruct l as [|z l]; [reflexivity|].
  change (join sep ((y :: z :: l) ++ [x]))
    with (y ++ sep ++ join sep ((z :: l) ++ [x])).
  rewrite IH by discriminate.
  change (join sep (y :: z :: l)) with (y ++ sep ++ join sep (z :: l)).
  now rewrite !string_app_assoc.
Qed.

Lemma show_all_contacts_nonempty st :
  data (book st) <> [] ->
  show_all_contacts st =
    (Ok ("Contacts:" ++ newline ++ join newline (map show_line (data (book st)))),
     st).
Proof.
  unfold show_all_contacts, bind, get_data, ret.
  destruct (data (book st)); [congruence | reflexivity].
Qed.

(** X21.  The listing follows the order in which names were first added:
    after [add] of a name that was not a key, in a book that was not
    empty, [show all] gives the listing it gave before followed by one
    more line, "<name>: <phone>". *)
Theorem show_all_after_add st nm phone listing :
  truthy nm = true ->
  dict_get (data (book st)) nm = None ->
  data (book st) <> [] ->
  fst (show_all_contacts st) = Ok listing ->
  fst (show_all_contacts (snd (add_contact nm phone st))) =
    Ok (listing ++ newline ++ nm ++ ": " ++ phone).
Proof.
  intros Hnm Habs Hne.
  rewrite (show_all_contacts_nonempty st Hne). cbn [fst]. intros [= <-].
  assert (Hd : data (book (snd (add_contact nm phone st))) =
                 (data (book st) ++ [(nm, mkRecord nm [phone] None)])%list).
  { rewrite add_contact_data by assumption. now apply dict_set_absent. }
  rewrite show_all_contacts_nonempty
    by (rewrite Hd; intros H; now apply app_eq_nil in H as [_ H]).
  cbn [fst]. rewrite Hd, map_app. f_equal.
  change (map show_line [(nm, mkRecord nm [phone] None)])
    with [nm ++ ": " ++ phone].
  rewrite join_snoc
    by (intros H; apply map_eq_nil in H; contradiction).
  now rewrite !string_app_assoc.
Qed.

Lemma show_all_after_add_witness :
  let st := mkState (mkBook [("alice", mkRecord "alice" ["111"] None)] None) ∅ [] in
  truthy "bob" = true /\
  fst (show_all_contacts (snd (add_contact "bob" "222" st))) =
    Ok ("Contacts:" ++ newline ++ "alice: 111" ++ newline ++ "bob: 222").
Proof.
  intros st. split; [reflexivity |].
  apply (show_all_after_add st "bob" "222"
           ("Contacts:" ++ newline ++ "alice: 111"));
    first [reflexivity | discriminate].
Defined.

(** X22.  [add] and [change] take exactly a name and a phone: a line with
    either verb and any other number of words after it only prints the
    invalid-command line.  The book, the disk and the loop go on as they
    were; in particular a name of two words cannot be added. *)
Theorem wrong_arity_is_invalid line verb args st :
  split (lower line) = verb :: args ->
  String.eqb verb "add" || String.eqb verb "change" = true ->
  length args <> 2%nat ->
  handle_line line st = (Ok true, snd (print invalid_command st)).
Proof.
  intros Hs Hv Hlen. unfold handle_line. rewrite Hs. unfold handle_command.
  destruct (String.eqb verb "hello") eqn:Eh.
  { apply String.eqb_eq in Eh. subst. discriminate. }
  destruct args as [|nm [|phone [|x l]]]; simpl in Hlen; try congruence;
    destruct (String.eqb verb "add"); simpl in Hv; try reflexivity;
    rewrite Hv; reflexivity.
Qed.

Lemma wrong_arity_is_invalid_witness :
  let st := initial_state ∅ in
  split (lower "add John Smith 123") = ["add"; "john"; "smith"; "123"] /\
  handle_line "add John Smith 123" st = (Ok true, snd (print invalid_command st)).
Proof.
  intros st. split; [reflexivity |].
  apply (wrong_arity_is_invalid "add John Smith 123" "add"
           ["john"; "smith"; "123"] st); [reflexivity | reflexivity | discriminate].
Defined.
